(** * Flesch reading ease: a shallow embedding of [flesch.py]

    The program reads a text file, extracts words and sentences with two
    regular expressions, counts syllables through a hyphenation dictionary
    and evaluates a linear formula in floating point.

    A Python [str] is a sequence of code points: a document is a list of
    code points ([N]).  The two regular expressions are run by a small
    backtracking matcher for the fragment of [re] the program uses; the
    hyphenation dictionary is a parameter; [float] is IEEE binary64
    ([PrimFloat]). *)

From Stdlib Require Import String Ascii.
From Stdlib Require Import List NArith ZArith Bool Lia.
From Stdlib Require Floats Uint63.
From Stdlib Require DecimalString.
Import ListNotations.

(** ** Text *)

Definition char := N.
Definition str := list char.

(** An ASCII literal as a document; letters outside ASCII are written by
    code point. *)
Definition text (s : string) : str :=
  map N_of_ascii (list_ascii_of_string s).
Arguments text s%_string.

Definition in_range (lo hi c : char) : bool := ((lo <=? c) && (c <=? hi))%N.

Definition one_of (l : list char) (c : char) : bool := existsb (N.eqb c) l.

Module Chr.
Definition A_uml : char := 196%N.
Definition O_uml : char := 214%N.
Definition U_uml : char := 220%N.
Definition a_uml : char := 228%N.
Definition o_uml : char := 246%N.
Definition u_uml : char := 252%N.
Definition eszett : char := 223%N.
Definition lf : char := 10%N.
Definition space : char := 32%N.
Definition dot : char := 46%N.
Definition colon : char := 58%N.
Definition bang : char := 33%N.
Definition qmark : char := 63%N.
End Chr.

Local Open Scope N_scope.

(** [[a-zA-ZäöüÄÖÜß]] *)
Definition is_letter (c : char) : bool :=
  in_range 97 122 c || in_range 65 90 c
  || one_of [Chr.a_uml; Chr.o_uml; Chr.u_uml;
             Chr.A_uml; Chr.O_uml; Chr.U_uml; Chr.eszett] c.

(** [[A-ZÄÖÜ]] *)
Definition is_upper (c : char) : bool :=
  in_range 65 90 c || one_of [Chr.A_uml; Chr.O_uml; Chr.U_uml] c.

(** [[.:!?]] *)
Definition is_terminal (c : char) : bool :=
  one_of [Chr.dot; Chr.colon; Chr.bang; Chr.qmark] c.

(** [\s] on a [str] pattern: the code points for which [str.isspace]
    holds. *)
Definition is_space (c : char) : bool :=
  in_range 9 13 c || in_range 28 32 c
  || one_of [133; 160; 5760; 8232; 8233; 8239; 8287; 12288] c
  || in_range 8192 8202 c.

(** [.] without [re.DOTALL]: every code point but the line feed. *)
Definition is_dot (c : char) : bool := negb (N.eqb c Chr.lf).

Local Close Scope N_scope.

(** ** Regular expressions

    The fragment of [re] that the two patterns are written in.  Repetition
    is over one character class, which keeps the matcher structural. *)

Inductive regex :=
| Cls (p : char -> bool)        (* a class, [\s] or [.] *)
| Cat (r1 r2 : regex)           (* r1 r2 *)
| LazyStar (p : char -> bool)   (* X*? *)
| Plus (p : char -> bool)       (* X+  *)
| Group (r : regex).            (* (r) *)

(** Matchers take the continuation of the pattern and answer the number of
    characters consumed from the input by pattern and continuation. *)
Definition cont := str -> option nat.

Definition consume (p : char -> bool) (k : cont) : cont :=
  fun s => match s with
           | c :: s' => if p c then option_map S (k s') else None
           | [] => None
           end.

(** Non-greedy: the continuation is tried before another character is
    taken. *)
Fixpoint lazy_star (p : char -> bool) (k : cont) (s : str) : option nat :=
  match k s with
  | Some n => Some n
  | None =>
      match s with
      | c :: s' => if p c then option_map S (lazy_star p k s') else None
      | [] => None
      end
  end.

(** Greedy: as many characters as possible are taken first, and given
    back one at a time when the continuation fails. *)
Fixpoint greedy_star (p : char -> bool) (k : cont) (s : str) : option nat :=
  match s with
  | c :: s' =>
      if p c then
        match greedy_star p k s' with
        | Some n => Some (S n)
        | None => k s
        end
      else k s
  | [] => k s
  end.

Fixpoint rmatch (r : regex) (k : cont) : cont :=
  match r with
  | Cls p => consume p k
  | Cat r1 r2 => rmatch r1 (rmatch r2 k)
  | LazyStar p => lazy_star p k
  | Plus p => consume p (greedy_star p k)
  | Group r => rmatch r k
  end.

(** [re.match]: the length of the match at the start of [s]. *)
Definition re_match (r : regex) (s : str) : option nat :=
  rmatch r (fun _ => Some 0) s.

(** The scan of [re.findall]: the leftmost match is taken, the scan goes
    on behind it.  [skip] counts the characters of the last match that are
    still to be passed; after an empty match the scan moves on by one
    character (neither pattern of the program matches the empty string). *)
Fixpoint scan (r : regex) (skip : nat) (s : str) : list str :=
  match s with
  | [] => match skip with
          | 0 => match re_match r [] with Some _ => [[]] | None => [] end
          | S _ => []
          end
  | _ :: s' =>
      match skip with
      | S n => scan r n s'
      | 0 => match re_match r s with
             | Some n => firstn n s :: scan r (pred n) s'
             | None => scan r 0 s'
             end
      end
  end.

(** [re.findall(r, s)], as the list of the matched texts.  For a pattern
    with one group [re.findall] lists the group's text instead, one entry
    per match all the same. *)
Definition findall (r : regex) (s : str) : list str := scan r 0 s.

(** [r'[a-zA-ZäöüÄÖÜß]+'] *)
Definition word_re : regex := Plus is_letter.

(** [r'[A-ZÄÖÜ].*?([.:!?]\s)'] *)
Definition sentence_re : regex :=
  Cat (Cls is_upper)
      (Cat (LazyStar is_dot) (Group (Cat (Cls is_terminal) (Cls is_space)))).

(** ** Python values and exceptions *)

(** [len] of a list, as a Python [int]. *)
Definition len {A} (l : list A) : Z := Z.of_nat (length l).

(** [sum] of a list of [int]. *)
Definition sum (l : list Z) : Z := fold_left Z.add l 0%Z.

Inductive exn :=
| Exception_ (msg : string)      (* raise Exception(msg) *)
| OSError (filename : string)    (* open() on a file that cannot be read *)
| ZeroDivisionError              (* x / 0 *)
| OverflowError                  (* round() of an infinity *)
| ValueError.                    (* round() of a NaN *)

Inductive result (A : Type) :=
| OK (a : A)
| Raise (e : exn).
Arguments OK {A} a.
Arguments Raise {A} e.

(** ** Floating point: IEEE binary64 *)

Module Float.
Import Floats.PrimFloat Floats.SpecFloat Floats.FloatOps.

(** [float(n)] for a count [n]; exact below [2^53], where also
    [int / int] is the quotient of the two conversions. *)
Definition of_int (n : Z) : float := of_uint63 (Uint63.of_Z n).

(** [a / b] on two [int].  Python rounds the exact quotient once, and
    raises OverflowError when it is beyond the floats; below [2^53] that
    is the quotient of the two conversions.  Where a theorem depends on
    the value, it bounds the counts. *)
Definition true_div (a b : Z) : result float :=
  if (b =? 0)%Z then Raise ZeroDivisionError
  else OK (div (of_int a) (of_int b)).

(** [m * 2^e] rounded to the nearest integer, ties to the even one. *)
Definition nearest_even (m : positive) (e : Z) : Z :=
  if (0 <=? e)%Z then (Zpos m * 2 ^ e)%Z
  else
    let d := (2 ^ (- e))%Z in
    let q := (Zpos m / d)%Z in
    let r := (Zpos m mod d)%Z in
    match (2 * r ?= d)%Z with
    | Lt => q
    | Gt => (q + 1)%Z
    | Eq => if Z.even q then q else (q + 1)%Z
    end.

(** [int(round(x))]: [round] with one argument answers the nearest
    [int], ties to even, and [int] of an [int] is that [int]. *)
Definition int_round (x : float) : result Z :=
  match Prim2SF x with
  | S754_zero _ => OK 0%Z
  | S754_finite s m e =>
      OK (if s then (- nearest_even m e)%Z else nearest_even m e)
  | S754_infinity _ => Raise OverflowError
  | S754_nan => Raise ValueError
  end.
End Float.

(** ** The file system and the dictionaries *)

Inductive io :=
| LoadDict (locale : string)     (* hyphen.Hyphenator(locale) *)
| Open (filename : string)
| ReadAll (filename : string)
| Close (filename : string).

(** [files f] is the text that reading [f] yields, [None] when [f] cannot
    be opened; [trace] lists what was done, latest first. *)
Record world := World {
  files : string -> option str;
  trace : list io
}.

Definition log (e : io) (w : world) : world :=
  {| files := files w; trace := e :: trace w |}.

(** [with open(filename, 'r') as f: f.read()] *)
Definition read_file (filename : string) (w : world) : result str * world :=
  let w := log (Open filename) w in
  match files w filename with
  | None => (Raise (OSError filename), w)
  | Some c => (OK c, log (Close filename) (log (ReadAll filename) w))
  end.

(** [Hyphenator.syllables]: a word to its syllables. *)
Definition hyphenator := str -> list str.

(** ** The class *)

Record Flesch := {
  hyphenation : hyphenator;
  lang : string;
  content : str;
  words : list str;
  n_sentences : Z;
  n_words : Z;
  n_syllables : Z
}.

Definition set_n_sentences (v : Z) (self : Flesch) : Flesch :=
  {| hyphenation := hyphenation self; lang := lang self;
     content := content self; words := words self;
     n_sentences := v; n_words := n_words self;
     n_syllables := n_syllables self |}.

Definition set_n_words (v : Z) (self : Flesch) : Flesch :=
  {| hyphenation := hyphenation self; lang := lang self;
     content := content self; words := words self;
     n_sentences := n_sentences self; n_words := v;
     n_syllables := n_syllables self |}.

Definition set_n_syllables (v : Z) (self : Flesch) : Flesch :=
  {| hyphenation := hyphenation self; lang := lang self;
     content := content self; words := words self;
     n_sentences := n_sentences self; n_words := n_words self;
     n_syllables := v |}.

(** A method body: it reads and may assign the attributes of [self], and
    returns or raises. *)
Definition M (A : Type) : Type := Flesch -> result A * Flesch.

Definition ret {A} (a : A) : M A := fun self => (OK a, self).

Definition raise {A} (e : exn) : M A := fun self => (Raise e, self).

Definition bind {A B} (m : M A) (f : A -> M B) : M B :=
  fun self =>
    match m self with
    | (OK a, self') => f a self'
    | (Raise e, self') => (Raise e, self')
    end.

Definition attr {A} (f : Flesch -> A) : M A := fun self => (OK (f self), self).

Definition setattr (upd : Flesch -> Flesch) : M unit :=
  fun self => (OK tt, upd self).

Definition lift {A} (r : result A) : M A := fun self => (r, self).

Declare Scope py_scope.
Delimit Scope py_scope with py.
Notation "x <- m ;; k" := (bind m (fun x => k))
  (at level 61, m at next level, right associativity) : py_scope.
Notation "m ;; k" := (bind m (fun _ => k))
  (at level 61, right associativity) : py_scope.
Local Open Scope py_scope.

(** [map(f, l)] consumed from left to right. *)
Fixpoint map_m {A B} (f : A -> M B) (l : list A) : M (list B) :=
  match l with
  | [] => ret []
  | a :: l' => b <- f a ;; bs <- map_m f l' ;; ret (b :: bs)
  end.

Definition count_words : M Z :=
  ws <- attr words ;; ret (len ws).

Definition count_sentences : M Z :=
  c <- attr content ;; ret (len (findall sentence_re c)).

Definition count_word_syllables (word : str) : M Z :=
  h <- attr hyphenation ;;
  let n_syllables := len (h word) in
  if (n_syllables =? 0)%Z then ret 1%Z else ret n_syllables.

Definition count_syllables : M Z :=
  ws <- attr words ;;
  ns <- map_m count_word_syllables ws ;;
  ret (sum ns).

Import Floats.PrimFloat.
Set Warnings "-inexact-float".

Definition calc_reading_ease_en (asl asw : float) : result Z :=
  Float.int_round (206.835 - 1.015 * asl - 84.6 * asw)%float.

Definition calc_reading_ease_de (asl asw : float) : result Z :=
  Float.int_round (180 - asl - 58.5 * asw)%float.

Set Warnings "inexact-float".

(** [calc_reading_ease] returns [None] when [lang] is neither ['de'] nor
    ['en']. *)
Definition calc_reading_ease : M (option Z) :=
  nw <- attr n_words ;;
  ns <- attr n_sentences ;;
  asl <- lift (Float.true_div nw ns) ;;
  ny <- attr n_syllables ;;
  nw <- attr n_words ;;
  asw <- lift (Float.true_div ny nw) ;;
  l <- attr lang ;;
  if (l =? "de")%string then
    v <- lift (calc_reading_ease_de asl asw) ;; ret (Some v)
  else if (l =? "en")%string then
    v <- lift (calc_reading_ease_en asl asw) ;; ret (Some v)
  else ret None.

Section Construction.

(** [hyphen.Hyphenator]: the dictionary of a locale. *)
Variable Hyphenator : string -> hyphenator.

Definition unsupported : string :=
  "Requested language not supported (Supported: 'en', 'de')."%string.

(** What [__init__] does once [self.hyphenation] is chosen.  The counts
    are assigned one after the other; until then they stand at 0, and
    the methods called here do not read them. *)
Definition init_rest (h : hyphenator) (filename lang : string) (w : world)
  : result Flesch * world :=
  match read_file filename w with
  | (Raise e, w') => (Raise e, w')
  | (OK c, w') =>
      let self :=
        {| hyphenation := h; lang := lang; content := c;
           words := findall word_re c;
           n_sentences := 0; n_words := 0; n_syllables := 0 |} in
      let body : M unit :=
        ns <- count_sentences ;; setattr (set_n_sentences ns) ;;
        ws <- attr words ;; setattr (set_n_words (len ws)) ;;
        ny <- count_syllables ;; setattr (set_n_syllables ny) in
      match body self with
      | (OK _, self') => (OK self', w')
      | (Raise e, _) => (Raise e, w')
      end
  end.

(** [Flesch(filename, lang)] *)
Definition init (filename lang : string) (w : world)
  : result Flesch * world :=
  if (lang =? "de")%string then
    init_rest (Hyphenator "de_DE") filename lang (log (LoadDict "de_DE") w)
  else if (lang =? "en")%string then
    init_rest (Hyphenator "en_US") filename lang (log (LoadDict "en_US") w)
  else (Raise (Exception_ unsupported), w).

End Construction.

(** ** Examples *)

Module Examples.

(** A dictionary that knows no hyphenation point. *)
Definition no_dict : string -> hyphenator := fun _ _ => [].

(** A dictionary that cuts after every second character. *)
Fixpoint pairs (w : str) : list str :=
  match w with
  | a :: b :: w' => [a; b] :: pairs w'
  | _ => match w with [] => [] | _ => [w] end
  end.
Definition pair_dict : string -> hyphenator := fun _ => pairs.

Definition disk (c : str) : world :=
  {| files := fun f => if (f =? "a.txt")%string then Some c else None;
     trace := [] |}.

Definition cat : str := text "The cat sat. The dog ran fast.".

End Examples.

(** ** Specification

    What the claims about the program speak of: runs of letters, the
    matches of the sentence heuristic, the syllables of a word, the object
    that construction leaves, and sequences of method calls. *)

(** The length of the longest prefix in a class. *)
Fixpoint prefix_len (p : char -> bool) (s : str) : nat :=
  match s with
  | c :: s' => if p c then S (prefix_len p s') else 0
  | [] => 0
  end.

(** The next character, if there is one, is outside the class. *)
Definition stops (p : char -> bool) (s : str) : Prop :=
  match s with
  | [] => True
  | c :: _ => p c = false
  end.

(** [Runs p d ws]: [ws] lists, in order, the maximal non-empty runs of
    characters of class [p] in [d]; between two runs, before the first and
    after the last lie characters outside [p]. *)
Inductive Runs (p : char -> bool) : str -> list str -> Prop :=
| Runs_end : forall sep,
    Forall (fun c => p c = false) sep -> Runs p sep []
| Runs_run : forall sep w rest ws,
    Forall (fun c => p c = false) sep ->
    w <> [] -> Forall (fun c => p c = true) w -> stops p rest ->
    Runs p rest ws ->
    Runs p (sep ++ w ++ rest) (w :: ws).

(** [([.:!?]\s)] *)
Definition end_re : regex := Group (Cat (Cls is_terminal) (Cls is_space)).

(** The sentence pattern over a class [q] for the characters between the
    capital and the end: the program's pattern has [q = is_dot]. *)
Definition sentence_pattern (q : char -> bool) : regex :=
  Cat (Cls is_upper) (Cat (LazyStar q) end_re).

(** A terminal mark and a whitespace character come next. *)
Definition ends_here (s : str) : bool :=
  match s with
  | p :: w :: _ => is_terminal p && is_space w
  | _ => false
  end.

(** How many characters [X*?] takes before the end is met. *)
Fixpoint body_len (q : char -> bool) (s : str) : option nat :=
  if ends_here s then Some 0
  else match s with
       | c :: s' => if q c then option_map S (body_len q s') else None
       | [] => None
       end.

(** [Sentence q m]: [m] is a capital, characters of class [q], a terminal
    mark and a whitespace character. *)
Definition Sentence (q : char -> bool) (m : str) : Prop :=
  exists u body p w,
    m = u :: body ++ [p; w]
    /\ is_upper u = true /\ Forall (fun c => q c = true) body
    /\ is_terminal p = true /\ is_space w = true.

(** A sentence starts at the head of [s]. *)
Definition starts (q : char -> bool) (s : str) : Prop :=
  exists m rest, Sentence q m /\ s = m ++ rest.

(** [m] is the shortest sentence at the head of [m ++ rest]: what the
    non-greedy match takes. *)
Definition shortest (q : char -> bool) (m rest : str) : Prop :=
  Sentence q m
  /\ forall m' rest', Sentence q m' -> m' ++ rest' = m ++ rest ->
                      length m <= length m'.

(** [Sentences q d ms]: [ms] lists the matches of the sentence heuristic
    in [d], scanned from left to right without overlap: no sentence
    starts before the first match, the match is the shortest sentence at
    its place, and the scan goes on behind it. *)
Inductive Sentences (q : char -> bool) : str -> list str -> Prop :=
| Sentences_end : forall s,
    (forall a b, s = a ++ b -> ~ starts q b) -> Sentences q s []
| Sentences_match : forall pre m rest ms,
    (forall a b, pre = a ++ b -> b <> [] -> ~ starts q (b ++ m ++ rest)) ->
    shortest q m rest ->
    Sentences q rest ms ->
    Sentences q (pre ++ m ++ rest) (m :: ms).

(** Somewhere in [s] a terminal mark is followed by whitespace. *)
Fixpoint has_end (s : str) : bool :=
  ends_here s || match s with
                 | _ :: s' => has_end s'
                 | [] => false
                 end.

(** The syllables of one word, in the words of the specification: one
    when the dictionary answers no syllable, else as many as it answers. *)
Definition word_syllables (h : hyphenator) (word : str) : Z :=
  match h word with
  | [] => 1%Z
  | l => len l
  end.

(** The syllables of a list of words: the sum of the words' counts. *)
Definition total_syllables (h : hyphenator) (ws : list str) : Z :=
  fold_right (fun word acc => (word_syllables h word + acc)%Z) 0%Z ws.

(** The object that [__init__] leaves for dictionary [h], language [l] and
    text [c]. *)
Definition built (h : hyphenator) (l : string) (c : str) : Flesch :=
  {| hyphenation := h; lang := l; content := c;
     words := findall word_re c;
     n_sentences := len (findall sentence_re c);
     n_words := len (findall word_re c);
     n_syllables := total_syllables h (findall word_re c) |}.

(** The world after [f] was opened, read and closed. *)
Definition read_trace (f : string) (w : world) : world :=
  log (Close f) (log (ReadAll f) (log (Open f) w)).

(** The locale of the dictionary that [__init__] loads for ['de'] and
    for ['en']. *)
Definition locale (l : string) : string :=
  if (l =? "de")%string then "de_DE"%string else "en_US"%string.

(** [0] to [9] *)
Definition is_digit (c : char) : bool := in_range 48%N 57%N c.

(** A call of a method of the class. *)
Inductive call :=
| CountWords
| CountSentences
| CountWordSyllables (word : str)
| CountSyllables
| CalcReadingEase.

(** The object after a call. *)
Definition after (c : call) (self : Flesch) : Flesch :=
  match c with
  | CountWords => snd (count_words self)
  | CountSentences => snd (count_sentences self)
  | CountWordSyllables word => snd (count_word_syllables word self)
  | CountSyllables => snd (count_syllables self)
  | CalcReadingEase => snd (calc_reading_ease self)
  end.

(** The object after a sequence of calls. *)
Definition after_all (cs : list call) (self : Flesch) : Flesch :=
  fold_left (fun s c => after c s) cs self.

(** What the method returns for the result of [int(round(x))]. *)
Definition returned (r : result Z) : result (option Z) :=
  match r with
  | OK v => OK (Some v)
  | Raise e => Raise e
  end.

(** ** Example data *)

(** The text ["A\nb. "]: a capital, a line feed, and an end behind it. *)
Definition two_lines : str := text "A" ++ [Chr.lf] ++ text "b. ".

(** An English analyzer of the text [c], no word hyphenated. *)
Definition with_text (c : str) : Flesch := built (fun _ => []) "en" c.

(** The pattern as the specification words it: any characters between the
    capital and the end. *)
Definition any_char (c : char) : bool := true.

Definition cat_open : Flesch := with_text Examples.cat.
Definition cat_closed : Flesch :=
  with_text (Examples.cat ++ [Chr.space]).

(** ["Über die Brücke."] *)
Definition bruecke : str :=
  [Chr.U_uml] ++ text "ber die Br" ++ [Chr.u_uml] ++ text "cke.".

Definition cat_en : Flesch :=
  built (Examples.pair_dict "en_US") "en" (Examples.cat ++ [Chr.space]).

Definition cat_de : Flesch :=
  built (Examples.no_dict "de_DE") "de" Examples.cat.

Definition empty_de : Flesch := built (Examples.no_dict "de_DE") "de" [].

(** Another object with the counts and the language of [cat_en]. *)
Definition counts_only : Flesch :=
  {| hyphenation := fun _ => []; lang := "en"; content := []; words := [];
     n_sentences := 2; n_words := 7; n_syllables := 14 |}.

(** A text of digits and marks only. *)
Definition digits : str := text "12. 34! ".

(** ** Rounding *)

(** [Nearest n s m e]: [n] is an integer nearest to the number with sign
    [s], mantissa [m] and exponent [e], that is to [m * 2^e] or its
    opposite; when two integers are equally near, [n] is the even one. *)
Definition Nearest (n : Z) (s : bool) (m : positive) (e : Z) : Prop :=
  let v := if s then Z.neg m else Z.pos m in
  (0 <= e -> n = v * 2 ^ e)%Z
  /\ (e < 0 ->
      Z.abs (2 * (n * 2 ^ (- e) - v)) <= 2 ^ (- e)
      /\ (Z.abs (2 * (n * 2 ^ (- e) - v)) = 2 ^ (- e) -> Z.even n = true))%Z.

(** [Rounds n x]: [n] is what rounding to the nearest integer, ties to
    even, gives for the finite value [x]; no integer rounds an infinity
    or a NaN. *)
Definition Rounds (n : Z) (x : SpecFloat.spec_float) : Prop :=
  match x with
  | SpecFloat.S754_zero _ => n = 0%Z
  | SpecFloat.S754_finite s m e => Nearest n s m e
  | _ => False
  end.

(** [fin_le x B]: [x] is zero, or finite and below [2^B] in absolute
    value. *)
Definition fin_le (x : SpecFloat.spec_float) (B : Z) : Prop :=
  match x with
  | SpecFloat.S754_zero _ => True
  | SpecFloat.S754_finite _ m e =>
      (Z.pos (SpecFloat.digits2_pos m) + e <= B)%Z
  | _ => False
  end.

(** [fin_ge x A]: [x] is finite, not zero, and at least [2^(A-1)] in
    absolute value. *)
Definition fin_ge (x : SpecFloat.spec_float) (A : Z) : Prop :=
  match x with
  | SpecFloat.S754_finite _ m e =>
      (A <= Z.pos (SpecFloat.digits2_pos m) + e)%Z
  | _ => False
  end.

(** ** The formulas over the rationals

    The formulas as the specification writes them, in exact arithmetic: a
    pair [(N, D)] stands for the fraction [N / D], [D] positive. *)

(** 206.835 - 1.015 (w / s) - 84.6 (y / w) *)
Definition exact_en (s w y : Z) : Z * Z :=
  (206835 * s * w - 1015 * w * w - 84600 * y * s, 1000 * s * w)%Z.

(** 180 - w / s - 58.5 (y / w) *)
Definition exact_de (s w y : Z) : Z * Z :=
  (1800 * s * w - 10 * w * w - 585 * y * s, 10 * s * w)%Z.

(** The nearest integer, the even one on a tie. *)
Definition round_half_even (q : Z * Z) : Z :=
  let (N, D) := q in
  let fl := (N / D)%Z in
  match (2 * (N mod D) ?= D)%Z with
  | Lt => fl
  | Gt => (fl + 1)%Z
  | Eq => if Z.even fl then fl else (fl + 1)%Z
  end.

(** The nearest integer, the one farther from zero on a tie. *)
Definition round_half_away (q : Z * Z) : Z :=
  let (N, D) := q in
  if (0 <=? N)%Z then ((2 * N + D) / (2 * D))%Z
  else (- ((- 2 * N + D) / (2 * D)))%Z.

(** One sentence of nine words; cut after every second letter the words
    have 28 syllables. *)
Definition nine_words : str :=
  text "Abcdefgh abcdef abcdef abcdef abcdef abcdef abcdef abcdef abcdef. ".

Definition nine_en : Flesch :=
  built (Examples.pair_dict "en_US") "en" nine_words.

(** ** The demonstration *)

(** [str(n)] of an [int]: its decimal digits, behind a minus sign when it
    is negative. *)
Definition str_int (n : Z) : string :=
  DecimalString.NilZero.string_of_int (Z.to_int n).

(** [str] of what [calc_reading_ease] returns. *)
Definition str_score (v : option Z) : string :=
  match v with
  | Some n => str_int n
  | None => "None"
  end.

(** ['Number of sentences/words/syllables: {}/{}/{}.'.format(...)] *)
Definition counts_line (fl : Flesch) : string :=
  ("Number of sentences/words/syllables: "
   ++ str_int (n_sentences fl) ++ "/" ++ str_int (n_words fl) ++ "/"
   ++ str_int (n_syllables fl) ++ ".")%string.

(** ['Flesch-Reading-Ease: {}.'.format(...)] *)
Definition score_line (v : option Z) : string :=
  ("Flesch-Reading-Ease: " ++ str_score v ++ ".")%string.

(** The block under [if __name__ == '__main__']: the lines printed, how
    the block ends, and the world it leaves.  The first line is printed
    before [calc_reading_ease] is called for the second. *)
Definition main (Hyphenator : string -> hyphenator) (w : world)
  : list string * result unit * world :=
  match init Hyphenator "test.txt" "de" w with
  | (Raise e, w') => ([], Raise e, w')
  | (OK fl, w') =>
      let line1 := counts_line fl in
      match calc_reading_ease fl with
      | (Raise e, _) => ([line1], Raise e, w')
      | (OK v, _) => ([line1; score_line v], OK tt, w')
      end
  end.

(** ["Ein Satz. Noch ein Satz! "] *)
Definition zwei : str := text "Ein Satz. Noch ein Satz! ".

(** A world in which [test.txt] holds the text [c]. *)
Definition test_disk (c : str) : world :=
  {| files := fun f => if (f =? "test.txt")%string then Some c else None;
     trace := [] |}.

(** * Properties *)

Example words_cat :
  findall word_re Examples.cat
  = map text ["The"; "cat"; "sat"; "The"; "dog"; "ran"; "fast"]%string.
Proof. reflexivity. Qed.

Example sentences_cat : length (findall sentence_re Examples.cat) = 1.
Proof. reflexivity. Qed.

Example score_cat :
  match init Examples.pair_dict "a.txt" "en"
          (Examples.disk (Examples.cat ++ [Chr.space])) with
  | (OK self, _) =>
      (n_sentences self, n_words self, n_syllables self,
       fst (calc_reading_ease self)) = (2, 7, 14, OK (Some 34))%Z
  | _ => False
  end.
Proof. vm_compute. reflexivity. Qed.

(** ** Construction: the language check *)

(** C5: for a language code other than 'en' and 'de' the constructor
    raises the unsupported-language exception, and the world is left as it
    was: no dictionary is loaded, no file is opened, read or closed. *)
Theorem init_unsupported_language :
  forall (Hyphenator : string -> hyphenator) (filename lang : string) (w : world),
    lang <> "en"%string -> lang <> "de"%string ->
    init Hyphenator filename lang w = (Raise (Exception_ unsupported), w)
    /\ trace (snd (init Hyphenator filename lang w)) = trace w.
Proof.
  intros H filename lang w Hen Hde. unfold init.
  destruct (String.eqb_spec lang "de") as [E|_]; [contradiction|].
  destruct (String.eqb_spec lang "en") as [E|_]; [contradiction|].
  split; reflexivity.
Qed.

Lemma init_unsupported_language_witness :
  init Examples.no_dict "a.txt" "fr" (Examples.disk Examples.cat)
  = (Raise (Exception_ unsupported), Examples.disk Examples.cat)
  /\ trace (snd (init Examples.no_dict "a.txt" "fr" (Examples.disk Examples.cat)))
     = trace (Examples.disk Examples.cat).
Proof.
  apply (@init_unsupported_language Examples.no_dict "a.txt" "fr"
           (Examples.disk Examples.cat)); discriminate.
Defined.

(** ** The matcher and the scan *)

Section Scan.

Variable r : regex.

(** Once the characters of a match are passed the scan starts afresh. *)
Lemma scan_skip :
  forall (s : str) (n : nat),
    n <= length s -> scan r n s = scan r 0 (skipn n s).
Proof.
  induction s as [|c s IH]; intros [|n] Hn; simpl in *; try reflexivity.
  - lia.
  - apply IH. lia.
Qed.

Lemma findall_nil_nomatch : re_match r [] = None -> findall r [] = [].
Proof. unfold findall. simpl. intros ->. reflexivity. Qed.

Lemma findall_cons_nomatch :
  forall c s, re_match r (c :: s) = None -> findall r (c :: s) = findall r s.
Proof. intros c s H. unfold findall. simpl. rewrite H. reflexivity. Qed.

Lemma findall_cons_match :
  forall c s n,
    re_match r (c :: s) = Some (S n) -> n <= length s ->
    findall r (c :: s) = (c :: firstn n s) :: findall r (skipn n s).
Proof.
  intros c s n H Hn. unfold findall. simpl scan. rewrite H. simpl.
  rewrite scan_skip by assumption. reflexivity.
Qed.

End Scan.

Lemma prefix_len_le : forall p s, prefix_len p s <= length s.
Proof.
  induction s as [|c s IH]; simpl; [lia|]. destruct (p c); lia.
Qed.

(** Nothing follows [X+] in the pattern, so the greedy loop never gives a
    character back. *)
Lemma greedy_star_end :
  forall p s, greedy_star p (fun _ => Some 0) s = Some (prefix_len p s).
Proof.
  induction s as [|c s IH]; simpl; [reflexivity|].
  destruct (p c); [rewrite IH|]; reflexivity.
Qed.

Lemma re_match_plus :
  forall p s,
    re_match (Plus p) s
    = match s with
      | c :: s' => if p c then Some (S (prefix_len p s')) else None
      | [] => None
      end.
Proof.
  intros p [|c s]; unfold re_match; simpl; [reflexivity|].
  destruct (p c); [rewrite greedy_star_end|]; reflexivity.
Qed.

Lemma prefix_len_app :
  forall p w rest,
    Forall (fun c => p c = true) w -> stops p rest ->
    prefix_len p (w ++ rest) = length w.
Proof.
  intros p w rest Hw Hrest. induction Hw as [|c w Hc _ IH]; simpl.
  - destruct rest as [|c rest]; simpl in *; [reflexivity|].
    rewrite Hrest. reflexivity.
  - rewrite Hc, IH. reflexivity.
Qed.

Lemma prefix_len_firstn :
  forall p s, Forall (fun c => p c = true) (firstn (prefix_len p s) s).
Proof.
  induction s as [|c s IH]; simpl; [constructor|].
  destruct (p c) eqn:E; simpl; constructor; assumption.
Qed.

Lemma prefix_len_skipn : forall p s, stops p (skipn (prefix_len p s) s).
Proof.
  induction s as [|c s IH]; simpl; [exact I|].
  destruct (p c) eqn:E; simpl; assumption.
Qed.

Lemma findall_plus_sep :
  forall p sep s,
    Forall (fun c => p c = false) sep ->
    findall (Plus p) (sep ++ s) = findall (Plus p) s.
Proof.
  intros p sep s H. induction H as [|c sep Hc _ IH]; simpl; [reflexivity|].
  rewrite findall_cons_nomatch; [assumption|].
  rewrite re_match_plus, Hc. reflexivity.
Qed.

Lemma findall_plus_run :
  forall p w rest,
    w <> [] -> Forall (fun c => p c = true) w -> stops p rest ->
    findall (Plus p) (w ++ rest) = w :: findall (Plus p) rest.
Proof.
  intros p [|c w] rest Hne Hw Hrest; [congruence|].
  inversion Hw as [|? ? Hc Hw']; subst.
  assert (L : prefix_len p (w ++ rest) = length w)
    by (apply prefix_len_app; assumption).
  simpl app. rewrite findall_cons_match with (n := length w).
  - rewrite firstn_app, Nat.sub_diag, firstn_all, skipn_app, Nat.sub_diag,
      skipn_all. simpl. rewrite app_nil_r. reflexivity.
  - rewrite re_match_plus, Hc, L. reflexivity.
  - rewrite length_app. lia.
Qed.

(** ** Words: maximal runs of letters *)

Lemma Runs_sep :
  forall p c d ws, p c = false -> Runs p d ws -> Runs p (c :: d) ws.
Proof.
  intros p c d ws Hc H. destruct H as [sep Hs|sep w rest ws Hs Hne Hw Hr H].
  - apply Runs_end. constructor; assumption.
  - change (Runs p ((c :: sep) ++ w ++ rest) (w :: ws)).
    apply Runs_run; try assumption. constructor; assumption.
Qed.

Lemma findall_plus_Runs_le :
  forall p n d, length d <= n -> Runs p d (findall (Plus p) d).
Proof.
  induction n as [|n IH]; intros [|c d] Hlen; simpl in Hlen; try lia.
  - rewrite findall_nil_nomatch by reflexivity. apply Runs_end. constructor.
  - rewrite findall_nil_nomatch by reflexivity. apply Runs_end. constructor.
  - destruct (p c) eqn:Hc.
    + pose proof (prefix_len_le p d) as Hle.
      rewrite findall_cons_match with (n := prefix_len p d);
        [|rewrite re_match_plus, Hc; reflexivity|assumption].
      rewrite <- (firstn_skipn (prefix_len p d) d) at 1.
      change (Runs p ([] ++ (c :: firstn (prefix_len p d) d)
                         ++ skipn (prefix_len p d) d)
                ((c :: firstn (prefix_len p d) d)
                   :: findall (Plus p) (skipn (prefix_len p d) d))).
      apply Runs_run.
      * constructor.
      * discriminate.
      * constructor; [assumption|apply prefix_len_firstn].
      * apply prefix_len_skipn.
      * apply IH. rewrite length_skipn. lia.
    + rewrite findall_cons_nomatch by (rewrite re_match_plus, Hc; reflexivity).
      apply Runs_sep; [assumption|]. apply IH. lia.
Qed.

Lemma findall_plus_Runs : forall p d, Runs p d (findall (Plus p) d).
Proof. intros p d. apply findall_plus_Runs_le with (n := length d). lia. Qed.

Lemma Runs_findall_plus :
  forall p d ws, Runs p d ws -> ws = findall (Plus p) d.
Proof.
  intros p d ws H. induction H as [sep Hs|sep w rest ws Hs Hne Hw Hr _ IH].
  - rewrite <- (app_nil_r sep), findall_plus_sep by assumption.
    rewrite findall_nil_nomatch; reflexivity.
  - rewrite findall_plus_sep, findall_plus_run by assumption.
    rewrite IH. reflexivity.
Qed.

(** ** Sentences *)

Lemma sentence_re_pattern : sentence_re = sentence_pattern is_dot.
Proof. reflexivity. Qed.

Lemma rmatch_end_re :
  forall s, rmatch end_re (fun _ => Some 0) s
            = if ends_here s then Some 2 else None.
Proof.
  intros [|p [|w s]]; simpl; try reflexivity.
  - destruct (is_terminal p); reflexivity.
  - destruct (is_terminal p); simpl; [|reflexivity].
    destruct (is_space w); reflexivity.
Qed.

Lemma lazy_star_end_re :
  forall q s,
    lazy_star q (rmatch end_re (fun _ => Some 0)) s
    = option_map (fun n => n + 2) (body_len q s).
Proof.
  induction s as [|c s IH].
  - reflexivity.
  - cbn [lazy_star body_len]. rewrite rmatch_end_re.
    destruct (ends_here (c :: s)); [reflexivity|].
    destruct (q c); [|reflexivity].
    rewrite IH. destruct (body_len q s); reflexivity.
Qed.

Lemma re_match_sentence :
  forall q s,
    re_match (sentence_pattern q) s
    = match s with
      | u :: s' =>
          if is_upper u
          then option_map (fun n => S (n + 2)) (body_len q s')
          else None
      | [] => None
      end.
Proof.
  intros q [|u s]; [reflexivity|].
  unfold re_match, sentence_pattern. cbn [rmatch consume].
  destruct (is_upper u); [|reflexivity].
  rewrite lazy_star_end_re. destruct (body_len q s); reflexivity.
Qed.

Lemma ends_here_inv :
  forall s, ends_here s = true ->
            exists p w rest, s = p :: w :: rest
                             /\ is_terminal p = true /\ is_space w = true.
Proof.
  intros [|p [|w rest]] H; simpl in H; try discriminate.
  apply andb_true_iff in H. exists p, w, rest. tauto.
Qed.

Lemma body_len_sound :
  forall q s n,
    body_len q s = Some n ->
    exists body p w rest,
      s = body ++ p :: w :: rest /\ length body = n
      /\ Forall (fun c => q c = true) body
      /\ is_terminal p = true /\ is_space w = true.
Proof.
  induction s as [|c s IH]; intros n H.
  - discriminate.
  - cbn [body_len] in H. destruct (ends_here (c :: s)) eqn:E.
    + injection H as <-. destruct (ends_here_inv _ E) as (p & w & rest & -> & Hp & Hw).
      exists [], p, w, rest. repeat split; [constructor|assumption..].
    + destruct (q c) eqn:Hq; [|discriminate].
      destruct (body_len q s) as [n'|] eqn:B; [|discriminate].
      injection H as <-.
      destruct (IH n' eq_refl) as (body & p & w & rest & -> & <- & Hb & Hp & Hw).
      exists (c :: body), p, w, rest.
      repeat split; [constructor|..]; assumption.
Qed.

Lemma body_len_first :
  forall q body p w rest,
    Forall (fun c => q c = true) body ->
    is_terminal p = true -> is_space w = true ->
    exists n, body_len q (body ++ p :: w :: rest) = Some n /\ n <= length body.
Proof.
  intros q body p w rest Hb Hp Hw. induction Hb as [|c body Hc _ IH].
  - exists 0. simpl. rewrite Hp, Hw. split; [reflexivity|lia].
  - cbn [app body_len length]. destruct (ends_here (c :: body ++ p :: w :: rest)).
    + exists 0. split; [reflexivity|lia].
    + rewrite Hc. destruct IH as (n & -> & Hn). exists (S n).
      split; [reflexivity|lia].
Qed.

Lemma re_match_sentence_starts :
  forall q s n, re_match (sentence_pattern q) s = Some n ->
    exists m rest, s = m ++ rest /\ length m = n /\ Sentence q m.
Proof.
  intros q s n H. rewrite re_match_sentence in H.
  destruct s as [|u s]; [discriminate|].
  destruct (is_upper u) eqn:Hu; [|discriminate].
  destruct (body_len q s) as [k|] eqn:B; [|discriminate].
  injection H as <-.
  destruct (body_len_sound q s k B) as (body & p & w & rest & -> & <- & Hb & Hp & Hw).
  exists (u :: body ++ [p; w]), rest. split; [|split].
  - simpl. rewrite <- app_assoc. reflexivity.
  - simpl. rewrite length_app. reflexivity.
  - exists u, body, p, w. tauto.
Qed.

Lemma starts_re_match :
  forall q m rest, Sentence q m ->
    exists n, re_match (sentence_pattern q) (m ++ rest) = Some n
              /\ n <= length m.
Proof.
  intros q m rest (u & body & p & w & -> & Hu & Hb & Hp & Hw).
  rewrite re_match_sentence. cbn [app]. rewrite Hu, <- app_assoc. cbn [app].
  destruct (body_len_first q body p w rest Hb Hp Hw) as (n & -> & Hn).
  exists (S (n + 2)). split; [reflexivity|].
  simpl. rewrite length_app. simpl. lia.
Qed.

Lemma re_match_sentence_None :
  forall q s, re_match (sentence_pattern q) s = None <-> ~ starts q s.
Proof.
  intros q s. split.
  - intros H (m & rest & Hm & ->).
    destruct (starts_re_match q m rest Hm) as (n & E & _). congruence.
  - intros H. destruct (re_match (sentence_pattern q) s) as [n|] eqn:E;
      [|reflexivity].
    exfalso. apply H.
    destruct (re_match_sentence_starts q _ _ E) as (m & rest & -> & _ & Hm).
    exists m, rest. tauto.
Qed.

Lemma re_match_sentence_shortest :
  forall q s n, re_match (sentence_pattern q) s = Some n ->
    exists m rest, s = m ++ rest /\ length m = n /\ shortest q m rest.
Proof.
  intros q s n H.
  destruct (re_match_sentence_starts q _ _ H) as (m & rest & -> & L & Hm).
  exists m, rest. split; [reflexivity|]. split; [assumption|].
  split; [assumption|]. intros m' rest' Hm' E.
  destruct (starts_re_match q m' rest' Hm') as (n' & E' & Hn').
  rewrite E, H in E'. injection E' as <-. lia.
Qed.

Lemma shortest_re_match :
  forall q m rest, shortest q m rest ->
    re_match (sentence_pattern q) (m ++ rest) = Some (length m).
Proof.
  intros q m rest [Hm Hmin].
  destruct (starts_re_match q m rest Hm) as (n & E & Hn).
  destruct (re_match_sentence_starts q _ _ E) as (m' & rest' & E' & L & Hm').
  pose proof (Hmin m' rest' Hm' (eq_sym E')). rewrite E. f_equal. lia.
Qed.

Lemma findall_no_match :
  forall r s,
    (forall a b, s = a ++ b -> re_match r b = None) -> findall r s = [].
Proof.
  induction s as [|c s IH]; intros H.
  - apply findall_nil_nomatch. apply (H [] []). reflexivity.
  - rewrite findall_cons_nomatch by (apply (H []); reflexivity).
    apply IH. intros a b ->. apply (H (c :: a)). reflexivity.
Qed.

Lemma findall_skip :
  forall r pre s,
    (forall a b, pre = a ++ b -> b <> [] -> re_match r (b ++ s) = None) ->
    findall r (pre ++ s) = findall r s.
Proof.
  induction pre as [|c pre IH]; intros s H; [reflexivity|].
  cbn [app]. rewrite findall_cons_nomatch.
  - apply IH. intros a b -> Hb. apply (H (c :: a)); [reflexivity|assumption].
  - apply (H [] (c :: pre)); [reflexivity|discriminate].
Qed.

Lemma Sentence_not_nil : forall q m, Sentence q m -> m <> [].
Proof. intros q m (u & body & p & w & -> & _). discriminate. Qed.

Lemma Sentences_findall :
  forall q d ms, Sentences q d ms -> ms = findall (sentence_pattern q) d.
Proof.
  intros q d ms H.
  induction H as [s Hs|pre m rest ms Hpre Hm _ IH].
  - symmetry. apply findall_no_match. intros a b E.
    apply re_match_sentence_None. exact (Hs a b E).
  - rewrite findall_skip
      by (intros a b E Hb; apply re_match_sentence_None; exact (Hpre a b E Hb)).
    pose proof (shortest_re_match q m rest Hm) as E.
    destruct m as [|c m]; [destruct Hm as [Hm _]; elim (Sentence_not_nil q [] Hm); reflexivity|].
    cbn [app length] in *.
    rewrite findall_cons_match with (n := length m);
      [|assumption|rewrite length_app; lia].
    rewrite firstn_app, Nat.sub_diag, firstn_all, skipn_app, Nat.sub_diag,
      skipn_all. simpl. rewrite app_nil_r, IH. reflexivity.
Qed.

Lemma Sentences_cons_nomatch :
  forall q c d ms,
    ~ starts q (c :: d) -> Sentences q d ms -> Sentences q (c :: d) ms.
Proof.
  intros q c d ms Hc H. destruct H as [s Hs|pre m rest ms Hpre Hm H].
  - apply Sentences_end. intros [|x a] b E.
    + simpl in E. subst b. assumption.
    + injection E as -> ->. apply (Hs a b). reflexivity.
  - change (Sentences q ((c :: pre) ++ m ++ rest) (m :: ms)).
    apply Sentences_match; try assumption.
    intros [|x a] b E Hb.
    + simpl in E. subst b. assumption.
    + injection E as -> ->. apply (Hpre a b); [reflexivity|assumption].
Qed.

Lemma findall_Sentences_le :
  forall q n d, length d <= n -> Sentences q d (findall (sentence_pattern q) d).
Proof.
  induction n as [|n IH]; intros d Hlen.
  - destruct d; [|simpl in Hlen; lia].
    rewrite findall_nil_nomatch by reflexivity. apply Sentences_end.
    intros a b E. symmetry in E. apply app_eq_nil in E as [_ ->].
    apply re_match_sentence_None. reflexivity.
  - destruct d as [|c d].
    + rewrite findall_nil_nomatch by reflexivity. apply Sentences_end.
      intros a b E. symmetry in E. apply app_eq_nil in E as [_ ->].
      apply re_match_sentence_None. reflexivity.
    + simpl in Hlen.
      destruct (re_match (sentence_pattern q) (c :: d)) as [k|] eqn:E.
      * destruct (re_match_sentence_shortest q _ _ E) as (m & rest & Ed & L & Hm).
        destruct m as [|c' m];
          [destruct Hm as [Hm _]; elim (Sentence_not_nil q [] Hm); reflexivity|].
        cbn [app length] in *. injection Ed as <- ->. subst k.
        rewrite findall_cons_match with (n := length m);
          [|assumption|rewrite length_app; lia].
        rewrite firstn_app, Nat.sub_diag, firstn_all, skipn_app, Nat.sub_diag,
          skipn_all. simpl. rewrite app_nil_r.
        change (Sentences q ([] ++ (c :: m) ++ rest)
                  ((c :: m) :: findall (sentence_pattern q) rest)).
        apply Sentences_match.
        -- intros a b Eab Hb. symmetry in Eab. apply app_eq_nil in Eab as [_ ->].
           congruence.
        -- assumption.
        -- apply IH. rewrite length_app in Hlen. lia.
      * rewrite findall_cons_nomatch by assumption.
        apply Sentences_cons_nomatch.
        -- apply re_match_sentence_None. assumption.
        -- apply IH. lia.
Qed.

Lemma findall_Sentences :
  forall q d, Sentences q d (findall (sentence_pattern q) d).
Proof. intros q d. apply findall_Sentences_le with (n := length d). lia. Qed.

(** ** A last sentence without whitespace behind it *)

Lemma has_end_cons :
  forall c s, has_end (c :: s) = false ->
              ends_here (c :: s) = false /\ has_end s = false.
Proof. intros c s H. cbn [has_end] in H. apply orb_false_iff in H. exact H. Qed.

Lemma ends_here_app :
  forall s x, ends_here s = true -> ends_here (s ++ x) = true.
Proof. intros [|p [|w s]] x H; simpl in *; try discriminate. assumption. Qed.

Lemma ends_here_app2 :
  forall a b s x, ends_here ((a :: b :: s) ++ x) = ends_here (a :: b :: s).
Proof. reflexivity. Qed.

Lemma body_len_no_end :
  forall q s, has_end s = false -> body_len q s = None.
Proof.
  induction s as [|c s IH]; intros H; [reflexivity|].
  destruct (has_end_cons c s H) as [E H'].
  cbn [body_len]. rewrite E, (IH H'). destruct (q c); reflexivity.
Qed.

Lemma findall_no_end :
  forall q s, has_end s = false -> findall (sentence_pattern q) s = [].
Proof.
  induction s as [|c s IH]; intros H.
  - apply findall_nil_nomatch. reflexivity.
  - destruct (has_end_cons c s H) as [_ H'].
    rewrite findall_cons_nomatch; [apply IH; assumption|].
    rewrite re_match_sentence, (body_len_no_end q s H').
    destruct (is_upper c); reflexivity.
Qed.

Lemma body_len_cons :
  forall q c s,
    body_len q (c :: s)
    = if ends_here (c :: s) then Some 0
      else if q c then option_map S (body_len q s) else None.
Proof. reflexivity. Qed.

(** A match that is found stays when the text goes on. *)
Lemma body_len_app :
  forall q s x n, body_len q s = Some n -> body_len q (s ++ x) = Some n.
Proof.
  induction s as [|c s IH]; intros x n H; [discriminate|].
  rewrite body_len_cons in H. rewrite <- app_comm_cons, body_len_cons.
  destruct (ends_here (c :: s)) eqn:E.
  - rewrite app_comm_cons, (ends_here_app _ x E). assumption.
  - destruct (q c) eqn:Hq; [|discriminate].
    destruct (body_len q s) as [k|] eqn:B; [|discriminate].
    destruct s as [|b s]; [discriminate|].
    rewrite app_comm_cons, ends_here_app2, E, (IH x k eq_refl).
    assumption.
Qed.

(** A match that one more character brings about reaches to that
    character, and no end lies before it. *)
Lemma body_len_snoc :
  forall q s w n,
    body_len q s = None -> body_len q (s ++ [w]) = Some n ->
    has_end s = false /\ S n = length s.
Proof.
  induction s as [|c s IH]; intros w n HN HS.
  - simpl in HS. destruct (q w); discriminate.
  - cbn [body_len] in HN. destruct (ends_here (c :: s)) eqn:E; [discriminate|].
    cbn [app body_len] in HS.
    destruct (ends_here (c :: s ++ [w])) eqn:E'.
    + injection HS as <-. destruct s as [|b s].
      * split; reflexivity.
      * change (c :: (b :: s) ++ [w]) with ((c :: b :: s) ++ [w]) in E'.
        rewrite ends_here_app2 in E'. congruence.
    + destruct (q c); [|discriminate].
      destruct (body_len q s) as [k|] eqn:B; [discriminate|].
      destruct (body_len q (s ++ [w])) as [k|] eqn:B'; [|discriminate].
      injection HS as <-. destruct (IH w k eq_refl B') as [H L].
      split; [|simpl; lia]. cbn [has_end]. rewrite E, H. reflexivity.
Qed.



(** The classes of the pattern do not meet. *)
Ltac class_cases :=
  unfold is_upper, is_letter, is_terminal, is_space, is_dot, in_range, one_of,
    Chr.A_uml, Chr.O_uml, Chr.U_uml, Chr.a_uml, Chr.o_uml, Chr.u_uml,
    Chr.eszett, Chr.lf, Chr.space, Chr.dot, Chr.colon, Chr.bang, Chr.qmark
    in *;
  cbn [existsb] in *;
  repeat match goal with
         | H : (_ || _) = true |- _ => apply orb_true_iff in H; destruct H
         | H : (_ && _) = true |- _ => apply andb_true_iff in H; destruct H
         | H : (_ <=? _)%N = true |- _ => apply N.leb_le in H
         | H : (_ =? _)%N = true |- _ => apply N.eqb_eq in H
         | H : false = true |- _ => discriminate H
         end.



Lemma upper_is_letter : forall c, is_upper c = true -> is_letter c = true.
Proof.
  intros c H. destruct (is_letter c) eqn:E; [reflexivity|].
  unfold is_upper, is_letter in *. cbn [one_of existsb] in *.
  repeat match goal with
         | F : (_ || _) = false |- _ =>
             apply orb_false_iff in F; destruct F
         end.
  repeat match goal with
         | F : ?x = false |- _ => rewrite F in H; clear F
         end.
  discriminate H.
Qed.

Section Unterminated.

Variable q : char -> bool.
Variables (u : char) (body : str) (p w : char).
Hypothesis Hu : is_upper u = true.
Hypothesis Hbody : Forall (fun c => q c = true) body.
Hypothesis Hp : is_terminal p = true.
Hypothesis Hw : is_space w = true.
Hypothesis Hone : has_end (body ++ [p]) = false.





End Unterminated.

(** ** The methods, run *)

Lemma sum_from : forall l a, fold_left Z.add l a = (a + sum l)%Z.
Proof.
  unfold sum. induction l as [|x l IH]; intros a; simpl; [lia|].
  rewrite (IH (a + x)%Z), (IH x). lia.
Qed.

Lemma sum_cons : forall x l, sum (x :: l) = (x + sum l)%Z.
Proof. intros x l. unfold sum at 1. simpl. apply sum_from. Qed.

Lemma word_syllables_pos : forall h word, (1 <= word_syllables h word)%Z.
Proof.
  intros h word. unfold word_syllables, len.
  destruct (h word); simpl length; lia.
Qed.

Lemma total_syllables_ge :
  forall h ws, (len ws <= total_syllables h ws)%Z.
Proof.
  intros h ws. unfold len, total_syllables.
  induction ws as [|x ws IH]; cbn [fold_right length].
  - lia.
  - pose proof (word_syllables_pos h x). rewrite Nat2Z.inj_succ. lia.
Qed.

Lemma count_words_run :
  forall self, count_words self = (OK (len (words self)), self).
Proof. reflexivity. Qed.

Lemma count_sentences_run :
  forall self,
    count_sentences self = (OK (len (findall sentence_re (content self))), self).
Proof. reflexivity. Qed.

Lemma count_word_syllables_run :
  forall word self,
    count_word_syllables word self
    = (OK (word_syllables (hyphenation self) word), self).
Proof.
  intros word self. unfold count_word_syllables, bind, attr, word_syllables, len.
  destruct (hyphenation self word); reflexivity.
Qed.

Lemma map_m_count_word_syllables :
  forall ws self,
    map_m count_word_syllables ws self
    = (OK (map (word_syllables (hyphenation self)) ws), self).
Proof.
  induction ws as [|x ws IH]; intros self; [reflexivity|].
  cbn [map_m map]. unfold bind at 1. rewrite count_word_syllables_run.
  unfold bind at 1. rewrite IH. reflexivity.
Qed.

Lemma sum_word_syllables :
  forall h ws, sum (map (word_syllables h) ws) = total_syllables h ws.
Proof.
  intros h ws. induction ws as [|x ws IH]; [reflexivity|].
  cbn [map]. rewrite sum_cons, IH. reflexivity.
Qed.

Lemma count_syllables_run :
  forall self,
    count_syllables self
    = (OK (total_syllables (hyphenation self) (words self)), self).
Proof.
  intros self. unfold count_syllables, bind at 1, attr.
  unfold bind. rewrite map_m_count_word_syllables. unfold ret.
  rewrite sum_word_syllables. reflexivity.
Qed.

Lemma calc_reading_ease_zero :
  forall self,
    n_sentences self = 0%Z \/ n_words self = 0%Z ->
    calc_reading_ease self = (Raise ZeroDivisionError, self).
Proof.
  intros self H. unfold calc_reading_ease, bind, attr, lift, Float.true_div.
  destruct (Z.eqb_spec (n_sentences self) 0) as [_|Hs]; [reflexivity|].
  destruct (Z.eqb_spec (n_words self) 0) as [_|Hw]; [reflexivity|].
  destruct H; contradiction.
Qed.

Lemma calc_reading_ease_self :
  forall self, snd (calc_reading_ease self) = self.
Proof.
  intros self. unfold calc_reading_ease, bind, attr, lift, ret, Float.true_div.
  destruct (n_sentences self =? 0)%Z; [reflexivity|].
  destruct (n_words self =? 0)%Z; [reflexivity|].
  destruct (lang self =? "de")%string.
  - destruct (calc_reading_ease_de _ _); reflexivity.
  - destruct (lang self =? "en")%string; [|reflexivity].
    destruct (calc_reading_ease_en _ _); reflexivity.
Qed.

(** ** Construction *)

Lemma init_rest_run :
  forall h f l w,
    init_rest h f l w
    = match files w f with
      | Some c => (OK (built h l c), read_trace f w)
      | None => (Raise (OSError f), log (Open f) w)
      end.
Proof.
  intros h f l w. unfold init_rest, read_file. cbn [files log].
  destruct (files w f) as [c|]; [|reflexivity].
  unfold bind at 1. rewrite count_sentences_run.
  unfold bind, setattr, attr. rewrite count_syllables_run. reflexivity.
Qed.

Lemma init_ok :
  forall Hy f l w self w',
    init Hy f l w = (OK self, w') ->
    (l = "de"%string \/ l = "en"%string)
    /\ exists c, files w f = Some c
                 /\ self = built (Hy (locale l)) l c
                 /\ w' = read_trace f (log (LoadDict (locale l)) w).
Proof.
  intros Hy f l w self w' H. unfold init in H. unfold locale.
  destruct (String.eqb_spec l "de") as [->|Hde].
  - split; [left; reflexivity|]. rewrite init_rest_run in H. cbn [files log] in H.
    destruct (files w f) as [c|]; [|discriminate].
    injection H as <- <-. exists c. repeat split.
  - destruct (String.eqb_spec l "en") as [->|Hen]; [|discriminate].
    split; [right; reflexivity|]. rewrite init_rest_run in H.
    cbn [files log] in H.
    destruct (files w f) as [c|]; [|discriminate].
    injection H as <- <-. exists c. repeat split.
Qed.

Lemma init_run :
  forall Hy f l w c,
    l = "de"%string \/ l = "en"%string -> files w f = Some c ->
    init Hy f l w
    = (OK (built (Hy (locale l)) l c),
       read_trace f (log (LoadDict (locale l)) w)).
Proof.
  intros Hy f l w c Hl Hf.
  assert (R : forall h d, init_rest h f l (log (LoadDict d) w)
                          = (OK (built h l c), read_trace f (log (LoadDict d) w))).
  { intros h d. rewrite init_rest_run. cbn [files log]. rewrite Hf. reflexivity. }
  unfold init, locale. destruct Hl as [-> | ->]; simpl String.eqb; cbv iota; apply R.
Qed.

(** ** Sentence count *)

(** The count is not the number of matches with any characters allowed
    between the capital and the end: the text ["A\nb. "] is one such
    match, and the program counts none. *)
Lemma any_char_count_differs :
  ~ (forall (self : Flesch) (ms : list str),
        Sentences any_char (content self) ms ->
        fst (count_sentences self) = OK (len ms)).
Proof.
  intros H. specialize (H (with_text two_lines) [two_lines]).
  assert (S1 : Sentences any_char (content (with_text two_lines))
                 [two_lines]).
  { change [two_lines]
      with (findall (sentence_pattern any_char)
              (content (with_text two_lines))).
    apply findall_Sentences. }
  specialize (H S1). vm_compute in H. discriminate H.
Qed.

(** C1: on the text ["A\nb. "], a capital, a line feed, a letter, a
    period and a space, [count_sentences] answers 0.  The text is a
    sentence as the method's docstring and the claim define one: it starts
    with an uppercase letter and ends with a terminal mark followed by
    whitespace; it is the one match of the claimed pattern, and the count
    should be 1. *)
Theorem count_sentences_line_feed :
  count_sentences (with_text two_lines) = (OK 0%Z, with_text two_lines)
  /\ Sentence any_char two_lines
  /\ Sentences any_char two_lines [two_lines]
  /\ (forall ms, Sentences any_char two_lines ms -> len ms = 1%Z).
Proof.
  split; [reflexivity|]. split; [|split].
  - exists 65%N, [Chr.lf; 98%N], Chr.dot, Chr.space.
    repeat split; try reflexivity. repeat constructor.
  - change [two_lines] with (findall (sentence_pattern any_char) two_lines).
    apply findall_Sentences.
  - intros ms H. rewrite (Sentences_findall any_char _ _ H). reflexivity.
Qed.



Example cat_counts :
  fst (count_sentences cat_open) = OK 1%Z
  /\ fst (count_sentences cat_closed) = OK 2%Z.
Proof. split; reflexivity. Qed.

(** ** Word list *)

Lemma is_letter_spec :
  forall c,
    is_letter c = true
    <-> ((97 <= c <= 122)%N \/ (65 <= c <= 90)%N
         \/ In c [228; 246; 252; 196; 214; 220; 223]%N).
Proof.
  intros c. split.
  - intros H. class_cases;
      try (left; lia); try (right; left; lia);
      right; right; subst c; simpl; tauto.
  - intros [[H1 H2]|[[H1 H2]|H]]; unfold is_letter, in_range.
    + apply N.leb_le in H1, H2. rewrite H1, H2. reflexivity.
    + apply N.leb_le in H1, H2. rewrite H1, H2. cbn [andb].
      rewrite orb_true_r. reflexivity.
    + simpl in H.
      repeat (destruct H as [<-|H]; [reflexivity|]). contradiction.
Qed.

Lemma letter_not_space : forall c, is_letter c = true -> is_space c = false.
Proof.
  intros c H. destruct (is_space c) eqn:E; [exfalso|reflexivity].
  class_cases; lia.
Qed.

Lemma letter_not_terminal :
  forall c, is_letter c = true -> is_terminal c = false.
Proof.
  intros c H. destruct (is_terminal c) eqn:E; [exfalso|reflexivity].
  class_cases; lia.
Qed.

Lemma letter_not_digit : forall c, is_letter c = true -> is_digit c = false.
Proof.
  intros c H. destruct (is_digit c) eqn:E; [exfalso|reflexivity].
  unfold is_digit in E. class_cases; lia.
Qed.

Lemma Runs_letters :
  forall p d ws, Runs p d ws ->
    forall word c, In word ws -> In c word -> p c = true.
Proof.
  intros p d ws H. induction H as [|sep w rest ws _ _ Hw _ _ IH].
  - intros word c [].
  - intros word c [<-|Hin] Hc.
    + rewrite Forall_forall in Hw. apply Hw. assumption.
    + apply (IH word c); assumption.
Qed.

(** C2: the word list of a constructed analyzer is the list, in order of
    appearance, of the maximal non-empty runs of letters (a-z, A-Z, ä, ö,
    ü, Ä, Ö, Ü, ß) of the text read, and no other list is; no whitespace,
    terminal mark or digit is in a word; the words go to the dictionary as
    they stand in the text. *)
Theorem words_maximal_runs :
  forall Hy f l w self w',
    init Hy f l w = (OK self, w') ->
    files w f = Some (content self)
    /\ Runs is_letter (content self) (words self)
    /\ (forall ws, Runs is_letter (content self) ws -> ws = words self)
    /\ (forall word c, In word (words self) -> In c word ->
          is_letter c = true /\ is_space c = false
          /\ is_terminal c = false /\ is_digit c = false)
    /\ n_syllables self
       = sum (map (fun word => match hyphenation self word with
                               | [] => 1%Z
                               | sy => len sy
                               end) (words self)).
Proof.
  intros Hy f l w self w' H.
  destruct (init_ok Hy f l w self w' H) as (_ & c & Hf & -> & _).
  cbn [content words n_syllables hyphenation built].
  split; [assumption|].
  split; [apply findall_plus_Runs|].
  split; [intros ws Hws; apply Runs_findall_plus; assumption|].
  split.
  - intros word ch Hword Hch.
    assert (L : is_letter ch = true)
      by (apply (Runs_letters is_letter c _ (findall_plus_Runs is_letter c)
                   word ch Hword Hch)).
    repeat split;
      [assumption|apply letter_not_space|apply letter_not_terminal
       |apply letter_not_digit]; assumption.
  - symmetry. apply sum_word_syllables.
Qed.

Lemma words_maximal_runs_witness :
  Runs is_letter bruecke
    [[Chr.U_uml] ++ text "ber"; text "die";
     text "Br" ++ [Chr.u_uml] ++ text "cke"].
Proof.
  pose (w := Examples.disk bruecke).
  pose (r := init Examples.no_dict "a.txt" "de" w).
  destruct (words_maximal_runs Examples.no_dict "a.txt" "de" w
              (built (Examples.no_dict (locale "de")) "de" bruecke) (snd r)
              eq_refl) as (_ & R & _).
  exact R.
Defined.

(** ** Syllable count *)

(** C3: a word for which the dictionary answers no syllable counts as 1,
    any other word as the number of syllables answered; the syllable
    count of a constructed analyzer is the sum of these counts over its
    word list. *)
Theorem syllables_per_word_and_total :
  forall Hy f l w self w',
    init Hy f l w = (OK self, w') ->
    (forall word,
        (hyphenation self word = [] ->
         count_word_syllables word self = (OK 1%Z, self))
        /\ (hyphenation self word <> [] ->
            count_word_syllables word self
            = (OK (len (hyphenation self word)), self)))
    /\ n_syllables self = total_syllables (hyphenation self) (words self)
    /\ count_syllables self = (OK (n_syllables self), self).
Proof.
  intros Hy f l w self w' H.
  destruct (init_ok Hy f l w self w' H) as (_ & c & _ & -> & _).
  split; [|split].
  - intros word. rewrite count_word_syllables_run. unfold word_syllables.
    split; intros E.
    + rewrite E. reflexivity.
    + destruct (hyphenation _ word); [congruence|reflexivity].
  - reflexivity.
  - apply count_syllables_run.
Qed.

Lemma syllables_per_word_and_total_witness :
  count_word_syllables (text "fast") cat_en = (OK 2%Z, cat_en)
  /\ count_word_syllables [] cat_en = (OK 1%Z, cat_en)
  /\ n_syllables cat_en = 14%Z.
Proof.
  assert (E : init Examples.pair_dict "a.txt" "en"
                (Examples.disk (Examples.cat ++ [Chr.space]))
              = (OK cat_en,
                 read_trace "a.txt"
                   (log (LoadDict "en_US")
                      (Examples.disk (Examples.cat ++ [Chr.space])))))
    by (vm_compute; reflexivity).
  destruct (syllables_per_word_and_total _ _ _ _ _ _ E) as (A & B & _).
  split; [|split].
  - apply (A (text "fast")). discriminate.
  - apply (A []). reflexivity.
  - rewrite B. vm_compute. reflexivity.
Defined.

Lemma syllables_ge_words :
  forall Hy f l w self w',
    init Hy f l w = (OK self, w') -> (n_words self <= n_syllables self)%Z.
Proof.
  intros Hy f l w self w' H.
  destruct (init_ok Hy f l w self w' H) as (_ & c & _ & -> & _).
  apply total_syllables_ge.
Qed.

(** C7, as stated, fails: no analyzer can be constructed whose syllable
    count is below its word count. *)
Lemma no_fewer_syllables_than_words :
  ~ (exists Hy f l w self w',
        init Hy f l w = (OK self, w')
        /\ (n_syllables self < n_words self)%Z).
Proof.
  intros (Hy & f & l & w & self & w' & H & Hlt).
  pose proof (syllables_ge_words Hy f l w self w' H). lia.
Qed.

(** C7, amended: every word counts as at least one syllable, and so the
    syllable count of a constructed analyzer is at least its word
    count. *)
Theorem every_word_one_syllable :
  forall Hy f l w self w',
    init Hy f l w = (OK self, w') ->
    (forall word, exists n,
        count_word_syllables word self = (OK n, self) /\ (1 <= n)%Z)
    /\ (n_words self <= n_syllables self)%Z.
Proof.
  intros Hy f l w self w' H. split.
  - intros word. exists (word_syllables (hyphenation self) word).
    split; [apply count_word_syllables_run|apply word_syllables_pos].
  - apply (syllables_ge_words Hy f l w self w' H).
Qed.

Lemma every_word_one_syllable_witness :
  (exists n, count_word_syllables (text "cat") cat_de = (OK n, cat_de)
             /\ (1 <= n)%Z)
  /\ (n_words cat_de <= n_syllables cat_de)%Z.
Proof.
  assert (E : init Examples.no_dict "a.txt" "de" (Examples.disk Examples.cat)
              = (OK cat_de,
                 read_trace "a.txt"
                   (log (LoadDict "de_DE") (Examples.disk Examples.cat))))
    by (vm_compute; reflexivity).
  destruct (every_word_one_syllable _ _ _ _ _ _ E) as (A & B).
  split; [apply A|exact B].
Defined.

(** ** The cached counts *)

Lemma after_same : forall c self, after c self = self.
Proof.
  intros [| |word| |] self; cbn [after].
  - reflexivity.
  - reflexivity.
  - rewrite count_word_syllables_run. reflexivity.
  - rewrite count_syllables_run. reflexivity.
  - apply calc_reading_ease_self.
Qed.

Lemma after_all_same : forall cs self, after_all cs self = self.
Proof.
  unfold after_all. induction cs as [|c cs IH]; intros self; [reflexivity|].
  cbn [fold_left]. rewrite after_same. apply IH.
Qed.

(** C8: the three counts of a constructed analyzer are non-negative and
    are what construction derived from the text read: the number of
    sentence matches, the length of the word list, the syllables of the
    words; whatever methods are called afterwards, the object is as
    constructed, and [count_words] answers the cached word count. *)
Theorem counts_fixed_at_construction :
  forall Hy f l w self w',
    init Hy f l w = (OK self, w') ->
    (0 <= n_sentences self)%Z /\ (0 <= n_words self)%Z
    /\ (0 <= n_syllables self)%Z
    /\ n_sentences self = len (findall sentence_re (content self))
    /\ n_words self = len (words self)
    /\ n_syllables self = total_syllables (hyphenation self) (words self)
    /\ forall cs : list call,
        after_all cs self = self
        /\ fst (count_words (after_all cs self)) = OK (n_words self).
Proof.
  intros Hy f l w self w' H.
  pose proof (syllables_ge_words Hy f l w self w' H) as Hge.
  destruct (init_ok Hy f l w self w' H) as (_ & c & _ & -> & _).
  cbn [built n_sentences n_words n_syllables words content hyphenation] in *.
  unfold len in *.
  repeat split; try lia.
  - apply after_all_same.
  - rewrite after_all_same. reflexivity.
Qed.

Lemma counts_fixed_at_construction_witness :
  n_words cat_en = len (words cat_en)
  /\ after_all [CalcReadingEase; CountSyllables; CountWords] cat_en = cat_en
  /\ fst (count_words
            (after_all [CalcReadingEase; CountSyllables; CountWords] cat_en))
     = OK 7%Z.
Proof.
  assert (E : init Examples.pair_dict "a.txt" "en"
                (Examples.disk (Examples.cat ++ [Chr.space]))
              = (OK cat_en,
                 read_trace "a.txt"
                   (log (LoadDict "en_US")
                      (Examples.disk (Examples.cat ++ [Chr.space])))))
    by (vm_compute; reflexivity).
  destruct (counts_fixed_at_construction _ _ _ _ _ _ E)
    as (_ & _ & _ & _ & A & _ & B).
  split; [exact A|].
  exact (B [CalcReadingEase; CountSyllables; CountWords]).
Defined.

(** ** The score *)

Lemma findall_not_upper :
  forall q s,
    Forall (fun c => is_upper c = false) s ->
    findall (sentence_pattern q) s = [].
Proof.
  intros q s H. induction H as [|c s Hc _ IH].
  - apply findall_nil_nomatch. reflexivity.
  - rewrite findall_cons_nomatch; [assumption|].
    rewrite re_match_sentence, Hc. reflexivity.
Qed.

(** A text without a word has no sentence: a sentence begins with a
    letter. *)
Lemma no_words_no_sentences :
  forall c, findall word_re c = [] -> findall sentence_re c = [].
Proof.
  intros c H. pose proof (findall_plus_Runs is_letter c) as R.
  fold word_re in R. rewrite H in R. inversion R as [sep Hsep E|]; subst.
  rewrite sentence_re_pattern. apply findall_not_upper.
  apply Forall_impl with (2 := Hsep). intros a Ha.
  destruct (is_upper a) eqn:U; [|reflexivity].
  rewrite (upper_is_letter a U) in Ha. discriminate.
Qed.

(** C4: for a constructed analyzer whose text has no sentence or no word,
    [calc_reading_ease] raises ZeroDivisionError and returns no score. *)
Theorem calc_reading_ease_degenerate :
  forall Hy f l w self w',
    init Hy f l w = (OK self, w') ->
    findall sentence_re (content self) = []
    \/ findall word_re (content self) = [] ->
    calc_reading_ease self = (Raise ZeroDivisionError, self).
Proof.
  intros Hy f l w self w' H Hz.
  destruct (init_ok Hy f l w self w' H) as (_ & c & _ & -> & _).
  apply calc_reading_ease_zero. cbn [built content n_sentences n_words] in *.
  destruct Hz as [-> | ->]; [left|right]; reflexivity.
Qed.

Lemma calc_reading_ease_degenerate_witness :
  calc_reading_ease empty_de = (Raise ZeroDivisionError, empty_de).
Proof.
  assert (E : init Examples.no_dict "a.txt" "de" (Examples.disk [])
              = (OK empty_de,
                 read_trace "a.txt"
                   (log (LoadDict "de_DE") (Examples.disk []))))
    by (vm_compute; reflexivity).
  apply (calc_reading_ease_degenerate _ _ _ _ _ _ E).
  left. reflexivity.
Defined.

(** A sentence that lacks the whitespace behind its mark is not counted:
    the words are there, the score is not. *)
Example calc_reading_ease_one_open_sentence :
  n_words (built (Examples.no_dict "en_US") "en" (text "The cat sat."))
  = 3%Z
  /\ fst (calc_reading_ease
            (built (Examples.no_dict "en_US") "en" (text "The cat sat.")))
     = Raise ZeroDivisionError.
Proof. split; reflexivity. Qed.

Lemma calc_reading_ease_run :
  forall self,
    n_sentences self <> 0%Z -> n_words self <> 0%Z ->
    calc_reading_ease self
    = (let asl := div (Float.of_int (n_words self))
                      (Float.of_int (n_sentences self)) in
       let asw := div (Float.of_int (n_syllables self))
                      (Float.of_int (n_words self)) in
       if (lang self =? "de")%string
       then returned (calc_reading_ease_de asl asw)
       else if (lang self =? "en")%string
            then returned (calc_reading_ease_en asl asw)
            else OK None,
       self).
Proof.
  intros self Hs Hw.
  unfold calc_reading_ease, bind, attr, lift, ret, Float.true_div.
  destruct (Z.eqb_spec (n_sentences self) 0) as [|_]; [contradiction|].
  destruct (Z.eqb_spec (n_words self) 0) as [|_]; [contradiction|].
  cbv zeta.
  destruct (lang self =? "de")%string.
  - destruct (calc_reading_ease_de _ _); reflexivity.
  - destruct (lang self =? "en")%string; [|reflexivity].
    destruct (calc_reading_ease_en _ _); reflexivity.
Qed.

(** ["Über die Brücke. "] in German, every word one syllable:
    180 - 3 - 58.5 is 118.5, and the tie goes to the even 118. *)
Example score_bruecke :
  calc_reading_ease
    (built (Examples.no_dict "de_DE") "de" (bruecke ++ [Chr.space]))
  = (OK (Some 118%Z),
     built (Examples.no_dict "de_DE") "de" (bruecke ++ [Chr.space])).
Proof. vm_compute. reflexivity. Qed.

(** 705 sentences, 705 words and 1411 syllables in English: in the reals
    206.835 - 1.015 - 84.6 * 1411 / 705 is 36.5; in binary64 the value lies
    just above it and the score is 37. *)
Example score_near_tie :
  fst (calc_reading_ease
         {| hyphenation := fun _ => []; lang := "en"; content := [];
            words := []; n_sentences := 705; n_words := 705;
            n_syllables := 1411 |})
  = OK (Some 37%Z).
Proof. vm_compute. reflexivity. Qed.

(** C9: [calc_reading_ease] leaves the object as it was, a second call
    answers what the first did, and the answer depends on the three
    counts and the language only. *)
Theorem calc_reading_ease_pure :
  forall self self' : Flesch,
    n_sentences self' = n_sentences self ->
    n_words self' = n_words self ->
    n_syllables self' = n_syllables self ->
    lang self' = lang self ->
    snd (calc_reading_ease self) = self
    /\ calc_reading_ease (snd (calc_reading_ease self))
       = calc_reading_ease self
    /\ fst (calc_reading_ease self') = fst (calc_reading_ease self).
Proof.
  intros self self' Hs Hw Hy Hl.
  split; [apply calc_reading_ease_self|].
  split; [rewrite calc_reading_ease_self; reflexivity|].
  unfold calc_reading_ease, bind, attr, lift, ret, Float.true_div.
  rewrite Hs, Hw, Hy, Hl.
  destruct (n_sentences self =? 0)%Z; [reflexivity|].
  destruct (n_words self =? 0)%Z; [reflexivity|].
  destruct (lang self =? "de")%string.
  - destruct (calc_reading_ease_de _ _); reflexivity.
  - destruct (lang self =? "en")%string; [|reflexivity].
    destruct (calc_reading_ease_en _ _); reflexivity.
Qed.

Lemma calc_reading_ease_pure_witness :
  snd (calc_reading_ease cat_en) = cat_en
  /\ calc_reading_ease (snd (calc_reading_ease cat_en))
     = calc_reading_ease cat_en
  /\ fst (calc_reading_ease counts_only) = fst (calc_reading_ease cat_en).
Proof.
  apply (calc_reading_ease_pure cat_en counts_only); vm_compute; reflexivity.
Defined.

(** ** The degenerate document *)

(** C10: for a supported language and a readable text without a word
    (and so without a sentence), construction succeeds, the three counts
    are 0 and can be queried, and only [calc_reading_ease] raises. *)
Theorem init_degenerate_succeeds :
  forall Hy f l w c,
    l = "de"%string \/ l = "en"%string ->
    files w f = Some c ->
    findall word_re c = [] ->
    findall sentence_re c = []
    /\ exists self w',
        init Hy f l w = (OK self, w')
        /\ content self = c
        /\ n_sentences self = 0%Z /\ n_words self = 0%Z
        /\ n_syllables self = 0%Z
        /\ count_sentences self = (OK 0%Z, self)
        /\ count_words self = (OK 0%Z, self)
        /\ count_syllables self = (OK 0%Z, self)
        /\ calc_reading_ease self = (Raise ZeroDivisionError, self).
Proof.
  intros Hy f l w c Hl Hf Hw.
  pose proof (no_words_no_sentences c Hw) as Hs.
  split; [assumption|].
  exists (built (Hy (locale l)) l c).
  exists (read_trace f (log (LoadDict (locale l)) w)).
  split; [apply init_run; assumption|].
  split; [reflexivity|].
  assert (N : n_sentences (built (Hy (locale l)) l c) = 0%Z)
    by (cbn [built n_sentences]; rewrite Hs; reflexivity).
  assert (W : n_words (built (Hy (locale l)) l c) = 0%Z)
    by (cbn [built n_words]; rewrite Hw; reflexivity).
  assert (Y : n_syllables (built (Hy (locale l)) l c) = 0%Z)
    by (cbn [built n_syllables]; rewrite Hw; reflexivity).
  repeat split; try assumption.
  - rewrite count_sentences_run. cbn [built content]. rewrite Hs. reflexivity.
  - rewrite count_words_run. cbn [built words]. rewrite Hw. reflexivity.
  - rewrite count_syllables_run. cbn [built words]. rewrite Hw. reflexivity.
  - apply calc_reading_ease_zero. left. assumption.
Qed.

Lemma init_degenerate_succeeds_witness :
  exists self w',
    init Examples.no_dict "a.txt" "en" (Examples.disk digits) = (OK self, w')
    /\ content self = digits
    /\ n_sentences self = 0%Z /\ n_words self = 0%Z
    /\ n_syllables self = 0%Z
    /\ count_sentences self = (OK 0%Z, self)
    /\ count_words self = (OK 0%Z, self)
    /\ count_syllables self = (OK 0%Z, self)
    /\ calc_reading_ease self = (Raise ZeroDivisionError, self).
Proof.
  apply (init_degenerate_succeeds Examples.no_dict "a.txt" "en"
           (Examples.disk digits) digits).
  - right. reflexivity.
  - reflexivity.
  - vm_compute. reflexivity.
Defined.


(** * Further properties *)

(** ** Construction: files and dictionaries *)

(** X1: for a supported language and a file that cannot be opened,
    construction raises the file error; the dictionary was loaded and the
    file's opening attempted, nothing was read or closed. *)
Theorem init_unreadable_file :
  forall Hy f l w,
    l = "de"%string \/ l = "en"%string ->
    files w f = None ->
    init Hy f l w
    = (Raise (OSError f), log (Open f) (log (LoadDict (locale l)) w))
    /\ trace (snd (init Hy f l w))
       = Open f :: LoadDict (locale l) :: trace w.
Proof.
  intros Hy f l w Hl Hf.
  assert (E : init Hy f l w
              = (Raise (OSError f),
                 log (Open f) (log (LoadDict (locale l)) w))).
  { unfold init, locale.
    destruct Hl as [-> | ->]; simpl String.eqb; cbv iota;
      rewrite init_rest_run; cbn [files log]; rewrite Hf; reflexivity. }
  split; [exact E|]. rewrite E. reflexivity.
Qed.

Lemma init_unreadable_file_witness :
  init Examples.no_dict "b.txt" "en" (Examples.disk Examples.cat)
  = (Raise (OSError "b.txt"),
     log (Open "b.txt")
       (log (LoadDict (locale "en")) (Examples.disk Examples.cat)))
  /\ trace (snd (init Examples.no_dict "b.txt" "en"
                   (Examples.disk Examples.cat)))
     = [Open "b.txt"; LoadDict (locale "en")].
Proof.
  apply (init_unreadable_file Examples.no_dict "b.txt" "en"
           (Examples.disk Examples.cat)).
  - right. reflexivity.
  - reflexivity.
Defined.

(** X3: a successful construction loaded the dictionary of the
    language's locale (de_DE for 'de', en_US for 'en') and then opened,
    read and closed the file, once each and in this order, before any
    counting; the object holds that dictionary, the language code and the
    text read, and the files are as they were. *)
Theorem init_io_order :
  forall Hy f l w self w',
    init Hy f l w = (OK self, w') ->
    exists d,
      ((l = "de"%string /\ d = "de_DE"%string)
       \/ (l = "en"%string /\ d = "en_US"%string))
      /\ trace w' = Close f :: ReadAll f :: Open f :: LoadDict d :: trace w
      /\ files w' = files w
      /\ hyphenation self = Hy d
      /\ lang self = l
      /\ files w f = Some (content self).
Proof.
  intros Hy f l w self w' H.
  destruct (init_ok Hy f l w self w' H) as (Hl & c & Hf & -> & ->).
  exists (locale l). split; [|repeat split; assumption].
  destruct Hl as [-> | ->]; [left|right]; split; reflexivity.
Qed.

Lemma init_io_order_witness :
  exists d,
    (("en" = "de" /\ d = "de_DE") \/ ("en" = "en" /\ d = "en_US"))%string
    /\ trace (read_trace "a.txt"
                (log (LoadDict "en_US")
                   (Examples.disk (Examples.cat ++ [Chr.space]))))
       = [Close "a.txt"; ReadAll "a.txt"; Open "a.txt"; LoadDict d]
    /\ files (read_trace "a.txt"
                (log (LoadDict "en_US")
                   (Examples.disk (Examples.cat ++ [Chr.space]))))
       = files (Examples.disk (Examples.cat ++ [Chr.space]))
    /\ hyphenation cat_en = Examples.pair_dict d
    /\ lang cat_en = "en"%string
    /\ files (Examples.disk (Examples.cat ++ [Chr.space])) "a.txt"
       = Some (content cat_en).
Proof.
  assert (E : init Examples.pair_dict "a.txt" "en"
                (Examples.disk (Examples.cat ++ [Chr.space]))
              = (OK cat_en,
                 read_trace "a.txt"
                   (log (LoadDict "en_US")
                      (Examples.disk (Examples.cat ++ [Chr.space])))))
    by (vm_compute; reflexivity).
  exact (init_io_order _ _ _ _ _ _ E).
Defined.

(** ** Words and letters *)

Lemma filter_none :
  forall (p : char -> bool) s,
    Forall (fun c => p c = false) s -> filter p s = [].
Proof.
  intros p s H. induction H as [|c s Hc _ IH]; simpl; [reflexivity|].
  rewrite Hc. assumption.
Qed.

Lemma filter_all :
  forall (p : char -> bool) s,
    Forall (fun c => p c = true) s -> filter p s = s.
Proof.
  intros p s H. induction H as [|c s Hc _ IH]; simpl; [reflexivity|].
  rewrite Hc, IH. reflexivity.
Qed.

Lemma Runs_concat :
  forall p d ws, Runs p d ws -> concat ws = filter p d.
Proof.
  intros p d ws H. induction H as [sep Hs|sep w rest ws Hs _ Hw _ _ IH].
  - rewrite filter_none by assumption. reflexivity.
  - rewrite !filter_app, filter_none, filter_all by assumption.
    cbn [concat app]. rewrite IH. reflexivity.
Qed.

Lemma Runs_not_nil :
  forall p d ws, Runs p d ws -> Forall (fun word => word <> []) ws.
Proof.
  intros p d ws H. induction H as [|sep w rest ws _ Hne _ _ _ IH];
    constructor; assumption.
Qed.

(** X4: the words of a constructed analyzer, put together, are the
    letters of the text in their order: no letter is lost, changed or
    counted twice, and nothing else gets into a word. *)
Theorem words_are_the_letters :
  forall Hy f l w self w',
    init Hy f l w = (OK self, w') ->
    concat (words self) = filter is_letter (content self)
    /\ Forall (fun word => word <> []) (words self).
Proof.
  intros Hy f l w self w' H.
  destruct (init_ok Hy f l w self w' H) as (_ & c & _ & -> & _).
  cbn [built words content]. split.
  - apply Runs_concat. apply findall_plus_Runs.
  - apply (Runs_not_nil is_letter c). apply findall_plus_Runs.
Qed.

Lemma words_are_the_letters_witness :
  concat (words cat_en)
  = text "ThecatsatThedogranfast"
  /\ Forall (fun word => word <> []) (words cat_en).
Proof.
  assert (E : init Examples.pair_dict "a.txt" "en"
                (Examples.disk (Examples.cat ++ [Chr.space]))
              = (OK cat_en,
                 read_trace "a.txt"
                   (log (LoadDict "en_US")
                      (Examples.disk (Examples.cat ++ [Chr.space])))))
    by (vm_compute; reflexivity).
  destruct (words_are_the_letters _ _ _ _ _ _ E) as [A B].
  split; [rewrite A; vm_compute; reflexivity|exact B].
Defined.

(** ** Sentences and words *)

Lemma findall_match_app :
  forall r m rest,
    m <> [] -> re_match r (m ++ rest) = Some (length m) ->
    findall r (m ++ rest) = m :: findall r rest.
Proof.
  intros r [|c m] rest Hne H; [congruence|].
  cbn [app length] in *.
  rewrite findall_cons_match with (n := length m);
    [|assumption|rewrite length_app; lia].
  rewrite firstn_app, Nat.sub_diag, firstn_all, skipn_app, Nat.sub_diag,
    skipn_all. simpl. rewrite app_nil_r. reflexivity.
Qed.

Lemma prefix_len_stop :
  forall p a x b,
    p x = false -> prefix_len p (a ++ x :: b) = prefix_len p a.
Proof.
  intros p a x b Hx. induction a as [|c a IH]; simpl.
  - rewrite Hx. reflexivity.
  - destruct (p c); [rewrite IH|]; reflexivity.
Qed.

(** A character outside the class parts the runs before it from those
    behind it. *)
Lemma findall_plus_app_le :
  forall p n a, length a <= n ->
    forall x b, p x = false ->
      findall (Plus p) (a ++ x :: b)
      = findall (Plus p) a ++ findall (Plus p) b.
Proof.
  induction n as [|n IH]; intros a Hlen x b Hx.
  - destruct a; [|simpl in Hlen; lia]. cbn [app].
    rewrite findall_cons_nomatch by (rewrite re_match_plus, Hx; reflexivity).
    rewrite findall_nil_nomatch by reflexivity. reflexivity.
  - destruct a as [|c a].
    + cbn [app].
      rewrite findall_cons_nomatch by (rewrite re_match_plus, Hx; reflexivity).
      rewrite findall_nil_nomatch by reflexivity. reflexivity.
    + simpl in Hlen. cbn [app]. destruct (p c) eqn:Hc.
      * pose proof (prefix_len_le p a) as Hk.
        rewrite findall_cons_match with (n := prefix_len p a);
          [|rewrite re_match_plus, Hc, prefix_len_stop by assumption;
            reflexivity
           |rewrite length_app; lia].
        rewrite (findall_cons_match (Plus p) c a (prefix_len p a));
          [|rewrite re_match_plus, Hc; reflexivity|assumption].
        rewrite firstn_app, skipn_app.
        replace (prefix_len p a - length a) with 0 by lia.
        cbn [firstn skipn]. rewrite app_nil_r. cbn [app]. f_equal.
        apply IH; [rewrite length_skipn; lia|assumption].
      * rewrite !findall_cons_nomatch
          by (rewrite re_match_plus, Hc; reflexivity).
        apply IH; [lia|assumption].
Qed.

Lemma findall_plus_cons_ge :
  forall p c d,
    length (findall (Plus p) d) <= length (findall (Plus p) (c :: d)).
Proof.
  intros p c d. destruct (p c) eqn:Hc.
  - rewrite (findall_cons_match (Plus p) c d (prefix_len p d));
      [|rewrite re_match_plus, Hc; reflexivity|apply prefix_len_le].
    cbn [length]. destruct d as [|c' d]; [simpl; lia|].
    cbn [prefix_len]. destruct (p c') eqn:Hc'.
    + rewrite (findall_cons_match (Plus p) c' d (prefix_len p d));
        [|rewrite re_match_plus, Hc'; reflexivity|apply prefix_len_le].
      cbn [length skipn]. lia.
    + cbn [skipn]. lia.
  - rewrite findall_cons_nomatch by (rewrite re_match_plus, Hc; reflexivity).
    lia.
Qed.

Lemma space_not_letter : forall c, is_space c = true -> is_letter c = false.
Proof.
  intros c H. destruct (is_letter c) eqn:E; [|reflexivity].
  rewrite (letter_not_space c E) in H. discriminate.
Qed.

Lemma sentences_le_words_le :
  forall q n d, length d <= n ->
    length (findall (sentence_pattern q) d) <= length (findall word_re d).
Proof.
  induction n as [|n IH]; intros d Hlen.
  - destruct d; [|simpl in Hlen; lia].
    rewrite findall_nil_nomatch by reflexivity. simpl. lia.
  - destruct d as [|c d].
    + rewrite findall_nil_nomatch by reflexivity. simpl. lia.
    + simpl in Hlen.
      destruct (re_match (sentence_pattern q) (c :: d)) as [k|] eqn:E.
      * destruct (re_match_sentence_starts q _ _ E)
          as (m & rest & Ed & L & Hm).
        pose proof (f_equal (@length char) Ed) as EL.
        rewrite length_app in EL. cbn [length] in EL.
        rewrite Ed in *. subst k.
        rewrite findall_match_app
          by (try apply (Sentence_not_nil q); assumption).
        destruct Hm as (u & body & p & w & -> & Hu & _ & _ & Hw).
        assert (Hlen' : length rest <= n) by (cbn [length] in EL; lia).
        specialize (IH rest Hlen').
        replace ((u :: body ++ [p; w]) ++ rest)
          with ((u :: body ++ [p]) ++ w :: rest)
          by (cbn [app]; rewrite <- !app_assoc; reflexivity).
        unfold word_re in *.
        rewrite (findall_plus_app_le is_letter
                   (length (u :: body ++ [p])) (u :: body ++ [p])
                   (Nat.le_refl _) w rest (space_not_letter w Hw)).
        rewrite length_app.
        rewrite (findall_cons_match (Plus is_letter) u (body ++ [p])
                   (prefix_len is_letter (body ++ [p])));
          [|rewrite re_match_plus, (upper_is_letter u Hu); reflexivity
           |apply prefix_len_le].
        cbn [length]. lia.
      * rewrite findall_cons_nomatch by assumption.
        pose proof (findall_plus_cons_ge is_letter c d) as G.
        fold word_re in G. specialize (IH d). lia.
Qed.

Lemma built_sentences_le_words :
  forall h l c,
    (n_sentences (built h l c) <= n_words (built h l c))%Z.
Proof.
  intros h l c. cbn [built n_sentences n_words]. unfold len.
  rewrite sentence_re_pattern. apply inj_le.
  apply sentences_le_words_le with (n := length c). lia.
Qed.

(** X5: a constructed analyzer has at most as many sentences as words:
    the capital of every sentence match lies in a word of its own. *)
Theorem sentences_le_words :
  forall Hy f l w self w',
    init Hy f l w = (OK self, w') ->
    (n_sentences self <= n_words self)%Z.
Proof.
  intros Hy f l w self w' H.
  destruct (init_ok Hy f l w self w' H) as (_ & c & _ & -> & _).
  apply built_sentences_le_words.
Qed.

Lemma sentences_le_words_witness :
  (n_sentences cat_en <= n_words cat_en)%Z.
Proof.
  assert (E : init Examples.pair_dict "a.txt" "en"
                (Examples.disk (Examples.cat ++ [Chr.space]))
              = (OK cat_en,
                 read_trace "a.txt"
                   (log (LoadDict "en_US")
                      (Examples.disk (Examples.cat ++ [Chr.space])))))
    by (vm_compute; reflexivity).
  exact (sentences_le_words _ _ _ _ _ _ E).
Defined.

(** ** Where the score fails *)

Lemma int_round_no_zero_division :
  forall x, Float.int_round x <> Raise ZeroDivisionError.
Proof.
  intros x. unfold Float.int_round.
  destruct (FloatOps.Prim2SF x); discriminate.
Qed.

Lemma returned_no_zero_division :
  forall r, r <> Raise ZeroDivisionError ->
            returned r <> Raise ZeroDivisionError.
Proof. intros [v|e] H; simpl; congruence. Qed.

(** X6: for a constructed analyzer, [calc_reading_ease] raises
    ZeroDivisionError exactly when the text has no sentence match; with a
    sentence there is a word, and neither division fails. *)
Theorem zero_division_iff_no_sentence :
  forall Hy f l w self w',
    init Hy f l w = (OK self, w') ->
    fst (calc_reading_ease self) = Raise ZeroDivisionError
    <-> findall sentence_re (content self) = [].
Proof.
  intros Hy f l w self w' H.
  destruct (init_ok Hy f l w self w' H) as (Hl & c & _ & E & _).
  assert (Hle : (n_sentences self <= n_words self)%Z)
    by (rewrite E; apply built_sentences_le_words).
  assert (Hs : n_sentences self = len (findall sentence_re (content self)))
    by (rewrite E; reflexivity).
  assert (L : lang self = l) by (rewrite E; reflexivity).
  split.
  - intros Hz. apply length_zero_iff_nil.
    destruct (length (findall sentence_re (content self))) as [|k] eqn:Ek;
      [reflexivity|exfalso].
    unfold len in Hs. rewrite Ek in Hs.
    rewrite calc_reading_ease_run in Hz by lia. cbn [fst] in Hz. revert Hz.
    rewrite L. cbv zeta. unfold calc_reading_ease_de, calc_reading_ease_en.
    destruct Hl as [-> | ->]; simpl String.eqb; cbv iota;
      apply returned_no_zero_division, int_round_no_zero_division.
  - intros Hn. rewrite calc_reading_ease_zero; [reflexivity|].
    left. rewrite Hs, Hn. reflexivity.
Qed.

Lemma zero_division_iff_no_sentence_witness :
  fst (calc_reading_ease
         (built (Examples.no_dict "de_DE") "de" (text "The cat sat.")))
  = Raise ZeroDivisionError.
Proof.
  assert (E : init Examples.no_dict "a.txt" "de"
                (Examples.disk (text "The cat sat."))
              = (OK (built (Examples.no_dict "de_DE") "de"
                       (text "The cat sat.")),
                 read_trace "a.txt"
                   (log (LoadDict "de_DE")
                      (Examples.disk (text "The cat sat.")))))
    by (vm_compute; reflexivity).
  apply (zero_division_iff_no_sentence _ _ _ _ _ _ E).
  vm_compute. reflexivity.
Defined.

(** ** Texts without a sentence *)

(** X7: a text without a capital, or in which no terminal mark is
    followed by whitespace, has no sentence: [count_sentences] answers
    0. *)
Theorem count_sentences_zero :
  forall self : Flesch,
    Forall (fun c => is_upper c = false) (content self)
    \/ has_end (content self) = false ->
    count_sentences self = (OK 0%Z, self).
Proof.
  intros self H. rewrite count_sentences_run, sentence_re_pattern.
  destruct H as [H|H].
  - rewrite (findall_not_upper is_dot _ H). reflexivity.
  - rewrite (findall_no_end is_dot _ H). reflexivity.
Qed.

Lemma count_sentences_zero_witness :
  count_sentences (with_text (text "The cat sat.The dog ran fast."))
  = (OK 0%Z, with_text (text "The cat sat.The dog ran fast.")).
Proof.
  apply (count_sentences_zero
           (with_text (text "The cat sat.The dog ran fast."))).
  right. vm_compute. reflexivity.
Defined.

(** ** Text appended *)

Lemma re_match_sentence_app :
  forall q s x k,
    re_match (sentence_pattern q) s = Some k ->
    re_match (sentence_pattern q) (s ++ x) = Some k.
Proof.
  intros q s x k H. rewrite re_match_sentence in *.
  destruct s as [|u s]; [discriminate|]. cbn [app].
  destruct (is_upper u); [|discriminate].
  destruct (body_len q s) as [n|] eqn:B; [|discriminate].
  rewrite (body_len_app q s x n B). assumption.
Qed.

Lemma findall_sentence_snoc_le :
  forall q n d, length d <= n ->
    forall c, exists extra,
      findall (sentence_pattern q) (d ++ [c])
      = findall (sentence_pattern q) d ++ extra
      /\ length extra <= 1.
Proof.
  induction n as [|n IH]; intros d Hlen c.
  - destruct d; [|simpl in Hlen; lia]. exists []. split; [|simpl; lia].
    cbn [app].
    rewrite findall_cons_nomatch
      by (rewrite re_match_sentence; destruct (is_upper c); reflexivity).
    reflexivity.
  - destruct d as [|a d]; [apply IH; simpl; lia|].
    simpl in Hlen.
    destruct (re_match (sentence_pattern q) (a :: d)) as [k|] eqn:E.
    + pose proof (re_match_sentence_app q _ [c] k E) as E'.
      destruct (re_match_sentence_starts q _ _ E) as (m & rest & Ed & L & Hm).
      pose proof (f_equal (@length char) Ed) as EL.
      rewrite length_app in EL. cbn [length] in EL.
      pose proof (Sentence_not_nil q m Hm) as Hne.
      assert (Hm1 : 1 <= length m) by (destruct m; [congruence|simpl; lia]).
      rewrite Ed in *. subst k.
      rewrite <- app_assoc in *.
      rewrite (findall_match_app _ m (rest ++ [c]) Hne E').
      rewrite (findall_match_app _ m rest Hne E).
      destruct (IH rest ltac:(lia) c) as (extra & -> & Hx).
      exists extra. split; [reflexivity|assumption].
    + rewrite (findall_cons_nomatch _ a d E). cbn [app].
      destruct (re_match (sentence_pattern q) (a :: d ++ [c])) as [k|] eqn:E'.
      * pose proof E' as E2. rewrite re_match_sentence in E, E'.
        destruct (is_upper a); [|discriminate].
        destruct (body_len q d) as [k0|] eqn:B; [discriminate|].
        destruct (body_len q (d ++ [c])) as [k1|] eqn:B1; [|discriminate].
        injection E' as <-.
        destruct (body_len_snoc q d c k1 B B1) as [Hno Hk].
        rewrite (findall_no_end q d Hno).
        rewrite findall_cons_match with (n := k1 + 2);
          [|assumption|rewrite length_app; simpl; lia].
        rewrite skipn_all2 by (rewrite length_app; simpl; lia).
        rewrite findall_nil_nomatch by reflexivity.
        eexists. split; [reflexivity|simpl; lia].
      * rewrite (findall_cons_nomatch _ a _ E'). apply IH. lia.
Qed.

Lemma findall_sentence_app :
  forall q x d, exists extra,
    findall (sentence_pattern q) (d ++ x)
    = findall (sentence_pattern q) d ++ extra
    /\ length extra <= length x.
Proof.
  induction x as [|c x IH]; intros d.
  - exists []. rewrite !app_nil_r. split; [reflexivity|simpl; lia].
  - destruct (findall_sentence_snoc_le q (length d) d (Nat.le_refl _) c)
      as (e1 & E1 & L1).
    destruct (IH (d ++ [c])) as (e2 & E2 & L2).
    exists (e1 ++ e2). rewrite <- app_assoc in E2. cbn [app] in E2.
    rewrite E2, E1, <- app_assoc. split; [reflexivity|].
    rewrite length_app. simpl. lia.
Qed.

(** X8: text appended to a document keeps the sentence matches found so
    far and adds at most one match per appended character: the sentence
    count does not fall, and rises by at most the length of what is
    appended. *)
Theorem count_sentences_append :
  forall (self self' : Flesch) (x : str),
    content self' = content self ++ x ->
    exists (n n' : Z) (extra : list str),
      count_sentences self = (OK n, self)
      /\ count_sentences self' = (OK n', self')
      /\ findall sentence_re (content self')
         = findall sentence_re (content self) ++ extra
      /\ (n <= n' <= n + len x)%Z.
Proof.
  intros self self' x E.
  destruct (findall_sentence_app is_dot x (content self)) as (extra & Ex & L).
  exists (len (findall sentence_re (content self))).
  exists (len (findall sentence_re (content self'))). exists extra.
  rewrite !count_sentences_run, E, sentence_re_pattern, Ex.
  repeat split; unfold len; rewrite length_app; lia.
Qed.

Lemma count_sentences_append_witness :
  exists (n n' : Z) (extra : list str),
    count_sentences cat_open = (OK n, cat_open)
    /\ count_sentences cat_closed = (OK n', cat_closed)
    /\ findall sentence_re (content cat_closed)
       = findall sentence_re (content cat_open) ++ extra
    /\ (n <= n' <= n + len [Chr.space])%Z.
Proof.
  apply (count_sentences_append cat_open cat_closed [Chr.space]).
  reflexivity.
Defined.

(** ** Rounding of the score *)

Lemma nearest_even_pos :
  forall m e, Nearest (Float.nearest_even m e) false m e.
Proof.
  intros m e. unfold Nearest, Float.nearest_even. cbv zeta.
  destruct (Z.leb_spec 0 e) as [He|He]; split; try lia.
  intros _.
  assert (Hd : (0 < 2 ^ (- e))%Z) by (apply Z.pow_pos_nonneg; lia).
  pose proof (Z.div_mod (Z.pos m) (2 ^ (- e)) ltac:(lia)) as Hdm.
  pose proof (Z.mod_pos_bound (Z.pos m) (2 ^ (- e)) Hd) as Hr.
  set (d := (2 ^ (- e))%Z) in *.
  set (q := (Z.pos m / d)%Z) in *. set (r := (Z.pos m mod d)%Z) in *.
  destruct (Z.compare_spec (2 * r) d) as [Heq|Hlt|Hgt].
  - destruct (Z.even q) eqn:Ev.
    + split; [nia|intros _; assumption].
    + split; [nia|]. intros _. rewrite Z.even_add, Ev. reflexivity.
  - split; [nia|]. intros Habs. exfalso. nia.
  - split; [nia|]. intros Habs. exfalso. nia.
Qed.

Lemma nearest_opp :
  forall n m e, Nearest n false m e -> Nearest (- n) true m e.
Proof.
  intros n m e [H0 H1]. unfold Nearest in *. cbv zeta in *. split.
  - intros He. rewrite (H0 He). lia.
  - intros He. destruct (H1 He) as [A B].
    replace (2 * (- n * 2 ^ (- e) - Z.neg m))%Z
      with (- (2 * (n * 2 ^ (- e) - Z.pos m)))%Z by lia.
    rewrite Z.abs_opp, Z.even_opp. split; assumption.
Qed.

Lemma int_round_nearest :
  forall x s m e,
    FloatOps.Prim2SF x = SpecFloat.S754_finite s m e ->
    exists n, Float.int_round x = OK n /\ Nearest n s m e.
Proof.
  intros x s m e H. unfold Float.int_round. rewrite H.
  destruct s; eexists; (split; [reflexivity|]).
  - apply nearest_opp, nearest_even_pos.
  - apply nearest_even_pos.
Qed.

Set Warnings "-inexact-float".

(** X9: when the binary64 value of the formula is finite and not zero,
    both formulas return an integer nearest to that value, the even one
    when two integers are equally near. *)
Theorem score_is_nearest_integer :
  forall asl asw s m e,
    (FloatOps.Prim2SF (206.835 - 1.015 * asl - 84.6 * asw)%float
     = SpecFloat.S754_finite s m e ->
     exists n, calc_reading_ease_en asl asw = OK n /\ Nearest n s m e)
    /\ (FloatOps.Prim2SF (180 - asl - 58.5 * asw)%float
        = SpecFloat.S754_finite s m e ->
        exists n, calc_reading_ease_de asl asw = OK n /\ Nearest n s m e).
Proof.
  intros asl asw s m e. split; intros H; apply int_round_nearest; exact H.
Qed.

Lemma score_is_nearest_integer_witness :
  exists n, calc_reading_ease_de 3 1 = OK n
            /\ Nearest n false 8338696185053184 (-46).
Proof.
  destruct (score_is_nearest_integer 3 1 false 8338696185053184 (-46))
    as [_ A].
  apply A. vm_compute. reflexivity.
Defined.

(** X10: called with a NaN for either average, both formulas raise
    ValueError and return no score. *)
Theorem score_of_nan :
  forall asl asw,
    FloatOps.Prim2SF asl = SpecFloat.S754_nan
    \/ FloatOps.Prim2SF asw = SpecFloat.S754_nan ->
    calc_reading_ease_en asl asw = Raise ValueError
    /\ calc_reading_ease_de asl asw = Raise ValueError.
Proof.
  intros asl asw H.
  unfold calc_reading_ease_en, calc_reading_ease_de, Float.int_round.
  rewrite !FloatAxioms.sub_spec, !FloatAxioms.mul_spec.
  let v := eval vm_compute in (FloatOps.Prim2SF 1.015) in
  change (FloatOps.Prim2SF 1.015) with v.
  let v := eval vm_compute in (FloatOps.Prim2SF 84.6) in
  change (FloatOps.Prim2SF 84.6) with v.
  let v := eval vm_compute in (FloatOps.Prim2SF 58.5) in
  change (FloatOps.Prim2SF 58.5) with v.
  let v := eval vm_compute in (FloatOps.Prim2SF 206.835) in
  change (FloatOps.Prim2SF 206.835) with v.
  let v := eval vm_compute in (FloatOps.Prim2SF 180) in
  change (FloatOps.Prim2SF 180) with v.
  unfold FloatAxioms.SF64mul, FloatAxioms.SF64sub.
  destruct H as [H|H]; rewrite H; cbn [SpecFloat.SFmul SpecFloat.SFsub].
  - split; reflexivity.
  - split;
      match goal with
      | |- context [SpecFloat.SFsub _ _ ?a SpecFloat.S754_nan] =>
          destruct a; reflexivity
      end.
Qed.

Set Warnings "inexact-float".

Lemma score_of_nan_witness :
  calc_reading_ease_en nan 1 = Raise ValueError
  /\ calc_reading_ease_de nan 1 = Raise ValueError.
Proof.
  apply (score_of_nan nan 1). left. vm_compute. reflexivity.
Defined.

(** ** The demonstration *)

Lemma init_test_de :
  forall Hy w,
    init Hy "test.txt" "de" w
    = match files w "test.txt" with
      | Some c => (OK (built (Hy "de_DE"%string) "de" c),
                   read_trace "test.txt" (log (LoadDict "de_DE") w))
      | None => (Raise (OSError "test.txt"),
                 log (Open "test.txt") (log (LoadDict "de_DE") w))
      end.
Proof.
  intros Hy w. unfold init. simpl String.eqb. cbv iota.
  rewrite init_rest_run. reflexivity.
Qed.

(** X11: run on a [test.txt] without a sentence match, the demonstration
    prints the line of the counts, with 0 sentences, and then ends in
    ZeroDivisionError; when [test.txt] cannot be opened it prints nothing
    and ends in the file error. *)
Theorem main_fails :
  forall Hy w,
    (forall c,
        files w "test.txt" = Some c -> findall sentence_re c = [] ->
        main Hy w
        = ([("Number of sentences/words/syllables: 0/"
             ++ str_int (len (findall word_re c)) ++ "/"
             ++ str_int (total_syllables (Hy "de_DE"%string)
                           (findall word_re c)) ++ ".")%string],
           Raise ZeroDivisionError,
           read_trace "test.txt" (log (LoadDict "de_DE") w)))
    /\ (files w "test.txt" = None ->
        main Hy w
        = ([], Raise (OSError "test.txt"),
           log (Open "test.txt") (log (LoadDict "de_DE") w))).
Proof.
  intros Hy w. split.
  - intros c Hf Hs. unfold main. rewrite init_test_de, Hf.
    rewrite calc_reading_ease_zero
      by (left; cbn [built n_sentences]; rewrite Hs; reflexivity).
    unfold counts_line. cbn [built n_sentences n_words n_syllables].
    rewrite Hs. reflexivity.
  - intros Hf. unfold main. rewrite init_test_de, Hf. reflexivity.
Qed.

Lemma main_fails_witness :
  main Examples.no_dict (test_disk (text "Ein Satz ohne Ende."))
  = (["Number of sentences/words/syllables: 0/4/4."%string],
     Raise ZeroDivisionError,
     read_trace "test.txt"
       (log (LoadDict "de_DE") (test_disk (text "Ein Satz ohne Ende."))))
  /\ main Examples.no_dict (Examples.disk Examples.cat)
     = ([], Raise (OSError "test.txt"),
        log (Open "test.txt")
          (log (LoadDict "de_DE") (Examples.disk Examples.cat))).
Proof.
  split.
  - destruct (main_fails Examples.no_dict
                (test_disk (text "Ein Satz ohne Ende."))) as [A _].
    rewrite (A (text "Ein Satz ohne Ende.") eq_refl);
      [|vm_compute; reflexivity].
    vm_compute. reflexivity.
  - destruct (main_fails Examples.no_dict (Examples.disk Examples.cat))
      as [_ B].
    apply B. reflexivity.
Defined.

(** X12: when the demonstration ends without an exception it has printed
    exactly two lines: the counts of the text of [test.txt], with at
    least one sentence, and the score as an integer, which is the score
    of the German formula for these counts; it has loaded the German
    dictionary and read [test.txt], nothing else. *)
Theorem main_prints_two_lines :
  forall Hy w out w',
    main Hy w = (out, OK tt, w') ->
    exists c v,
      files w "test.txt" = Some c
      /\ (1 <= len (findall sentence_re c))%Z
      /\ calc_reading_ease (built (Hy "de_DE"%string) "de" c)
         = (OK (Some v), built (Hy "de_DE"%string) "de" c)
      /\ out
         = [("Number of sentences/words/syllables: "
             ++ str_int (len (findall sentence_re c)) ++ "/"
             ++ str_int (len (findall word_re c)) ++ "/"
             ++ str_int (total_syllables (Hy "de_DE"%string)
                           (findall word_re c)) ++ ".")%string;
            ("Flesch-Reading-Ease: " ++ str_int v ++ ".")%string]
      /\ trace w'
         = [Close "test.txt"; ReadAll "test.txt"; Open "test.txt";
            LoadDict "de_DE"] ++ trace w.
Proof.
  intros Hy w out w' H. unfold main in H. rewrite init_test_de in H.
  destruct (files w "test.txt") as [c|] eqn:Hf; [|discriminate H].
  set (fl := built (Hy "de_DE"%string) "de" c) in *.
  pose proof (calc_reading_ease_self fl) as Hself.
  destruct (calc_reading_ease fl) as [[v|e] fl'] eqn:Hc; [|discriminate H].
  cbn [snd] in Hself. subst fl'.
  injection H as <- <-.
  assert (Hs : (1 <= len (findall sentence_re c))%Z).
  { destruct (findall sentence_re c) eqn:Es.
    - rewrite calc_reading_ease_zero in Hc
        by (left; unfold fl; cbn [built n_sentences]; rewrite Es; reflexivity).
      discriminate Hc.
    - unfold len. cbn [length]. lia. }
  assert (Hw : n_words fl <> 0%Z).
  { intros Hw. rewrite calc_reading_ease_zero in Hc by (right; exact Hw).
    discriminate Hc. }
  assert (Hv : exists n, v = Some n).
  { rewrite calc_reading_ease_run in Hc
      by (try assumption; unfold fl; cbn [built n_sentences]; lia).
    cbv zeta in Hc. unfold fl in Hc at 5. cbn [built lang] in Hc.
    simpl String.eqb in Hc. cbv iota in Hc.
    destruct (calc_reading_ease_de _ _) as [n|e]; simpl in Hc;
      [|discriminate Hc].
    injection Hc as <-. exists n. reflexivity. }
  destruct Hv as [n ->].
  exists c, n. repeat split; try assumption; reflexivity.
Qed.

Lemma main_prints_two_lines_witness :
  exists c v,
    files (test_disk zwei) "test.txt" = Some c
    /\ (1 <= len (findall sentence_re c))%Z
    /\ calc_reading_ease (built (Examples.no_dict "de_DE") "de" c)
       = (OK (Some v), built (Examples.no_dict "de_DE") "de" c)
    /\ [("Number of sentences/words/syllables: 2/5/5.")%string;
        ("Flesch-Reading-Ease: 119.")%string]
       = [("Number of sentences/words/syllables: "
           ++ str_int (len (findall sentence_re c)) ++ "/"
           ++ str_int (len (findall word_re c)) ++ "/"
           ++ str_int (total_syllables (Examples.no_dict "de_DE")
                         (findall word_re c)) ++ ".")%string;
          ("Flesch-Reading-Ease: " ++ str_int v ++ ".")%string]
    /\ trace (read_trace "test.txt" (log (LoadDict "de_DE") (test_disk zwei)))
       = [Close "test.txt"; ReadAll "test.txt"; Open "test.txt";
          LoadDict "de_DE"] ++ trace (test_disk zwei).
Proof.
  apply (main_prints_two_lines Examples.no_dict (test_disk zwei)).
  vm_compute. reflexivity.
Defined.

(** ** What the score call can answer *)

Lemma int_round_outcomes :
  forall x,
    (exists n, Float.int_round x = OK n)
    \/ Float.int_round x = Raise OverflowError
    \/ Float.int_round x = Raise ValueError.
Proof.
  intros x. unfold Float.int_round.
  destruct (FloatOps.Prim2SF x); eauto.
Qed.

(** X13: on a constructed analyzer [calc_reading_ease] never returns
    None and leaves the object as it is: it returns an integer, or raises
    ZeroDivisionError, or raises the OverflowError or ValueError of
    rounding a value that is not finite; no other exception leaves it. *)
Theorem calc_reading_ease_outcomes :
  forall Hy f l w self w',
    init Hy f l w = (OK self, w') ->
    (exists v, calc_reading_ease self = (OK (Some v), self))
    \/ calc_reading_ease self = (Raise ZeroDivisionError, self)
    \/ calc_reading_ease self = (Raise OverflowError, self)
    \/ calc_reading_ease self = (Raise ValueError, self).
Proof.
  intros Hy f l w self w' H.
  destruct (init_ok Hy f l w self w' H) as (Hl & c & _ & E & _).
  assert (L : lang self = l) by (rewrite E; reflexivity).
  destruct (Z.eq_dec (n_sentences self) 0) as [Hs|Hs];
    [right; left; apply calc_reading_ease_zero; left; assumption|].
  destruct (Z.eq_dec (n_words self) 0) as [Hw|Hw];
    [right; left; apply calc_reading_ease_zero; right; assumption|].
  rewrite calc_reading_ease_run by assumption. cbv zeta. rewrite L.
  unfold calc_reading_ease_de, calc_reading_ease_en.
  destruct Hl as [-> | ->]; simpl String.eqb; cbv iota;
    match goal with
    | |- context [Float.int_round ?x] =>
        destruct (int_round_outcomes x) as [[n ->]|[-> | ->]]
    end; simpl returned; eauto.
Qed.

Lemma calc_reading_ease_outcomes_witness :
  (exists v, calc_reading_ease cat_en = (OK (Some v), cat_en))
  \/ calc_reading_ease cat_en = (Raise ZeroDivisionError, cat_en)
  \/ calc_reading_ease cat_en = (Raise OverflowError, cat_en)
  \/ calc_reading_ease cat_en = (Raise ValueError, cat_en).
Proof.
  assert (E : init Examples.pair_dict "a.txt" "en"
                (Examples.disk (Examples.cat ++ [Chr.space]))
              = (OK cat_en,
                 read_trace "a.txt"
                   (log (LoadDict "en_US")
                      (Examples.disk (Examples.cat ++ [Chr.space])))))
    by (vm_compute; reflexivity).
  exact (calc_reading_ease_outcomes _ _ _ _ _ _ E).
Defined.

(** X14: an object whose language is neither 'de' nor 'en', which no
    construction yields, still has its counts divided first: with a zero
    sentence or word count [calc_reading_ease] raises ZeroDivisionError;
    with counts from 1 to below 2^53, and syllables from 0, both
    divisions go through and it returns None and no score. *)
Theorem calc_reading_ease_other_language :
  forall self : Flesch,
    lang self <> "de"%string -> lang self <> "en"%string ->
    (n_sentences self = 0%Z \/ n_words self = 0%Z ->
     calc_reading_ease self = (Raise ZeroDivisionError, self))
    /\ ((1 <= n_sentences self < 2 ^ 53)%Z ->
        (1 <= n_words self < 2 ^ 53)%Z ->
        (0 <= n_syllables self < 2 ^ 53)%Z ->
        calc_reading_ease self = (OK None, self)).
Proof.
  intros self Hde Hen. split.
  - apply calc_reading_ease_zero.
  - intros Hs Hw _. rewrite calc_reading_ease_run by lia. cbv zeta.
    destruct (String.eqb_spec (lang self) "de") as [|_]; [contradiction|].
    destruct (String.eqb_spec (lang self) "en") as [|_]; [contradiction|].
    reflexivity.
Qed.

Lemma calc_reading_ease_other_language_witness :
  calc_reading_ease
    {| hyphenation := fun _ => []; lang := "fr"; content := []; words := [];
       n_sentences := 2; n_words := 7; n_syllables := 14 |}
  = (OK None,
     {| hyphenation := fun _ => []; lang := "fr"; content := []; words := [];
        n_sentences := 2; n_words := 7; n_syllables := 14 |}).
Proof.
  destruct (calc_reading_ease_other_language
              {| hyphenation := fun _ => []; lang := "fr"; content := [];
                 words := []; n_sentences := 2; n_words := 7;
                 n_syllables := 14 |}) as [_ B]; try discriminate.
  apply B; cbn [n_sentences n_words n_syllables]; lia.
Defined.

(** ** The queries and the cached counts *)

(** X15: on a constructed analyzer the three counting methods answer the
    cached counts: counting again gives what construction stored. *)
Theorem queries_answer_cached_counts :
  forall Hy f l w self w',
    init Hy f l w = (OK self, w') ->
    count_sentences self = (OK (n_sentences self), self)
    /\ count_words self = (OK (n_words self), self)
    /\ count_syllables self = (OK (n_syllables self), self).
Proof.
  intros Hy f l w self w' H.
  destruct (init_ok Hy f l w self w' H) as (_ & c & _ & -> & _).
  split; [|split].
  - apply count_sentences_run.
  - apply count_words_run.
  - apply count_syllables_run.
Qed.

Lemma queries_answer_cached_counts_witness :
  count_sentences cat_en = (OK 2%Z, cat_en)
  /\ count_words cat_en = (OK 7%Z, cat_en)
  /\ count_syllables cat_en = (OK 14%Z, cat_en).
Proof.
  assert (E : init Examples.pair_dict "a.txt" "en"
                (Examples.disk (Examples.cat ++ [Chr.space]))
              = (OK cat_en,
                 read_trace "a.txt"
                   (log (LoadDict "en_US")
                      (Examples.disk (Examples.cat ++ [Chr.space])))))
    by (vm_compute; reflexivity).
  destruct (queries_answer_cached_counts _ _ _ _ _ _ E) as (A & B & C).
  split; [|split]; [rewrite A|rewrite B|rewrite C]; vm_compute; reflexivity.
Defined.

(** * The score in binary64 *)

(** ** Magnitudes of the intermediate values *)

Module FloatBounds.

Import Floats.SpecFloat Floats.FloatOps Floats.FloatAxioms.
Local Open Scope Z_scope.

Lemma fexp_eq : forall e, fexp prec emax e = Z.max (e - 53) (-1074).
Proof. reflexivity. Qed.

Lemma digits2_pos_bounds :
  forall p,
    2 ^ (Z.pos (digits2_pos p) - 1) <= Z.pos p < 2 ^ Z.pos (digits2_pos p).
Proof.
  assert (P : forall d, 0 < d -> 2 ^ d = 2 * 2 ^ (d - 1)).
  { intros d Hd. rewrite <- Z.pow_succ_r by lia. f_equal. lia. }
  induction p as [p IH|p IH|]; cbn [digits2_pos].
  - rewrite Pos2Z.inj_succ. pose proof (Pos2Z.inj_xI p).
    replace (Z.succ (Z.pos (digits2_pos p)) - 1) with (Z.pos (digits2_pos p))
      by lia.
    rewrite Z.pow_succ_r by lia.
    pose proof (P (Z.pos (digits2_pos p)) ltac:(lia)). lia.
  - rewrite Pos2Z.inj_succ. pose proof (Pos2Z.inj_xO p).
    replace (Z.succ (Z.pos (digits2_pos p)) - 1) with (Z.pos (digits2_pos p))
      by lia.
    rewrite Z.pow_succ_r by lia.
    pose proof (P (Z.pos (digits2_pos p)) ltac:(lia)). lia.
  - simpl. lia.
Qed.

Lemma Zdigits2_nonneg : forall m, 0 <= Zdigits2 m.
Proof. intros [|p|p]; simpl; lia. Qed.

Lemma Zdigits2_abs_lt : forall m, Z.abs m < 2 ^ Zdigits2 m.
Proof.
  intros [|p|p]; simpl Zdigits2; simpl Z.abs.
  - simpl. lia.
  - apply digits2_pos_bounds.
  - apply digits2_pos_bounds.
Qed.

Lemma Zdigits2_le : forall m k, Z.abs m < 2 ^ k -> Zdigits2 m <= k.
Proof.
  intros m k H.
  assert (Hk : 0 <= k).
  { destruct (Z.lt_ge_cases k 0) as [Hn|]; [|assumption].
    rewrite Z.pow_neg_r in H by assumption. lia. }
  destruct m as [|p|p]; simpl Zdigits2; simpl Z.abs in H; [assumption| |].
  - destruct (Z.lt_ge_cases k (Z.pos (digits2_pos p))) as [Hlt|]; [|assumption].
    pose proof (digits2_pos_bounds p) as [Hlo _].
    pose proof (Z.pow_le_mono_r 2 k (Z.pos (digits2_pos p) - 1)). lia.
  - destruct (Z.lt_ge_cases k (Z.pos (digits2_pos p))) as [Hlt|]; [|assumption].
    pose proof (digits2_pos_bounds p) as [Hlo _].
    pose proof (Z.pow_le_mono_r 2 k (Z.pos (digits2_pos p) - 1)). lia.
Qed.

Lemma shr_1_bound :
  forall r k,
    0 <= shr_m r -> Zdigits2 (shr_m r) <= k ->
    0 <= shr_m (shr_1 r) /\ Zdigits2 (shr_m (shr_1 r)) <= Z.max 0 (k - 1).
Proof.
  intros [m b s] k Hm Hd. cbn [shr_m] in *.
  destruct m as [|[p|p|]|p]; cbn [shr_1 shr_m Zdigits2 digits2_pos] in *;
    try rewrite Pos2Z.inj_succ in Hd; lia.
Qed.

Lemma iter_shr_1_bound :
  forall n r k,
    0 <= shr_m r -> Zdigits2 (shr_m r) <= k ->
    0 <= shr_m (iter_pos shr_1 n r)
    /\ Zdigits2 (shr_m (iter_pos shr_1 n r)) <= Z.max 0 (k - Z.pos n).
Proof.
  induction n as [n IH|n IH|]; intros r k Hm Hd; cbn [iter_pos].
  - destruct (shr_1_bound r k Hm Hd) as [H1 D1].
    destruct (IH _ _ H1 D1) as [H2 D2].
    destruct (IH _ _ H2 D2) as [H3 D3].
    split; [assumption|]. pose proof (Pos2Z.inj_xI n). lia.
  - destruct (IH _ _ Hm Hd) as [H2 D2].
    destruct (IH _ _ H2 D2) as [H3 D3].
    split; [assumption|]. pose proof (Pos2Z.inj_xO n). lia.
  - apply shr_1_bound; assumption.
Qed.

Lemma shr_record_of_loc_m : forall m l, shr_m (shr_record_of_loc m l) = m.
Proof. intros m [|[| |]]; reflexivity. Qed.

Lemma shr_fexp_bound :
  forall m e l,
    0 <= m ->
    0 <= shr_m (fst (shr_fexp prec emax m e l))
    /\ snd (shr_fexp prec emax m e l) = Z.max e (fexp prec emax (Zdigits2 m + e))
    /\ Zdigits2 (shr_m (fst (shr_fexp prec emax m e l)))
       + snd (shr_fexp prec emax m e l)
       <= Z.max (Zdigits2 m + e) (-1074).
Proof.
  intros m e l Hm. unfold shr_fexp, shr.
  pose proof (Zdigits2_nonneg m) as Hd.
  rewrite fexp_eq.
  destruct (Z.max (Zdigits2 m + e - 53) (-1074) - e) as [|n|n] eqn:En;
    cbn [fst snd].
  - rewrite shr_record_of_loc_m. lia.
  - destruct (iter_shr_1_bound n (shr_record_of_loc m l) (Zdigits2 m))
      as [H1 D1]; rewrite ?shr_record_of_loc_m; try lia.
  - rewrite shr_record_of_loc_m. lia.
Qed.

Lemma round_nearest_even_bound :
  forall m l,
    0 <= m ->
    0 <= round_nearest_even m l
    /\ Zdigits2 (round_nearest_even m l) <= Zdigits2 m + 1.
Proof.
  intros m l Hm.
  assert (H1 : Zdigits2 (m + 1) <= Zdigits2 m + 1).
  { apply Zdigits2_le. pose proof (Zdigits2_abs_lt m) as H.
    replace (Zdigits2 m + 1) with (Z.succ (Zdigits2 m)) by lia.
    rewrite Z.pow_succ_r by apply Zdigits2_nonneg.
    rewrite Z.abs_eq in * by lia. lia. }
  unfold round_nearest_even.
  destruct l as [|[| |]]; try destruct (Z.even m); split; lia.
Qed.

Lemma fin_le_weaken : forall x B B', fin_le x B -> B <= B' -> fin_le x B'.
Proof. intros [s|s| |s m e] B B' H HB; simpl in *; try tauto; lia. Qed.

Lemma binary_round_aux_fin :
  forall s m e l,
    0 <= m -> e <= 971 -> Zdigits2 m + e <= 1023 ->
    fin_le (binary_round_aux prec emax s m e l)
      (Z.max (Zdigits2 m + e) (-1074) + 1).
Proof.
  intros s m e l Hm He HM. unfold binary_round_aux.
  pose proof (Zdigits2_nonneg m) as Hd.
  destruct (shr_fexp_bound m e l Hm) as (H1 & E1 & D1).
  destruct (shr_fexp prec emax m e l) as [r1 e1]. cbn [fst snd] in *.
  destruct (round_nearest_even_bound (shr_m r1) (loc_of_shr_record r1) H1)
    as [H2 D2].
  set (m2 := round_nearest_even (shr_m r1) (loc_of_shr_record r1)) in *.
  destruct (shr_fexp_bound m2 e1 loc_Exact H2) as (H3 & E3 & D3).
  destruct (shr_fexp prec emax m2 e1 loc_Exact) as [r2 e2].
  cbn [fst snd] in *. rewrite fexp_eq in *.
  pose proof (Zdigits2_nonneg m2) as Hd2.
  destruct (shr_m r2) as [|p|p]; [exact I| |lia].
  clearbody m2. assert (He2 : e2 <= 971) by lia.
  apply Z.leb_le in He2. change (emax - prec) with 971. rewrite He2.
  cbn [fin_le]. cbn [Zdigits2] in D3. lia.
Qed.

(** A canonical mantissa is left as it is. *)
Lemma binary_round_aux_exact :
  forall s m e,
    fexp prec emax (Z.pos (digits2_pos m) + e) = e -> e <= 971 ->
    binary_round_aux prec emax s (Z.pos m) e loc_Exact = S754_finite s m e.
Proof.
  intros s m e Hc He. unfold binary_round_aux, shr_fexp.
  cbn [Zdigits2 shr_record_of_loc]. rewrite Hc, Z.sub_diag.
  cbn [shr shr_m loc_of_shr_record round_nearest_even Zdigits2
         shr_record_of_loc].
  rewrite Hc, Z.sub_diag. cbn [shr shr_m].
  apply Z.leb_le in He. change (emax - prec) with 971. rewrite He.
  reflexivity.
Qed.

Lemma digits2_pos_iter :
  forall m d,
    digits2_pos (Pos.iter xO m d) = (digits2_pos m + d)%positive.
Proof.
  intros m d. induction d as [|d IH] using Pos.peano_ind.
  - cbn [Pos.iter digits2_pos]. lia.
  - rewrite Pos.iter_succ. cbn [digits2_pos]. rewrite IH. lia.
Qed.

Lemma shl_align_mag :
  forall mx ex ex',
    Z.pos (digits2_pos (fst (shl_align mx ex ex'))) + snd (shl_align mx ex ex')
    = Z.pos (digits2_pos mx) + ex
    /\ snd (shl_align mx ex ex') = Z.min ex ex'.
Proof.
  intros mx ex ex'. unfold shl_align.
  destruct (ex' - ex) as [|d|d] eqn:E; cbn [fst snd]; try lia.
  rewrite digits2_pos_iter. lia.
Qed.

Lemma binary_round_fin :
  forall s mx ex,
    ex <= 971 -> Z.pos (digits2_pos mx) + ex <= 1023 ->
    fin_le (binary_round prec emax s mx ex)
      (Z.max (Z.pos (digits2_pos mx) + ex) (-1074) + 1).
Proof.
  intros s mx ex He HM. unfold binary_round.
  destruct (shl_align_mag mx ex
              (fexp prec emax (Z.pos (digits2_pos mx) + ex))) as [A B].
  destruct (shl_align mx ex (fexp prec emax (Z.pos (digits2_pos mx) + ex)))
    as [mz ez].
  cbn [fst snd] in *. rewrite <- A.
  apply (binary_round_aux_fin s (Z.pos mz) ez loc_Exact);
    cbn [Zdigits2]; lia.
Qed.

Lemma binary_normalize_fin :
  forall m e,
    e <= 971 -> Zdigits2 m + e <= 1023 ->
    fin_le (binary_normalize prec emax m e false)
      (Z.max (Zdigits2 m + e) (-1074) + 1).
Proof.
  intros [|p|p] e He HM; cbn [binary_normalize Zdigits2] in *;
    [exact I|apply binary_round_fin; assumption
     |apply binary_round_fin; assumption].
Qed.

(** A positive integer of at most 53 bits is converted exactly: the
    result is finite, and its magnitude is the integer's number of bits. *)
Lemma binary_normalize_small :
  forall p,
    Z.pos (digits2_pos p) <= 53 ->
    exists m e,
      binary_normalize prec emax (Z.pos p) 0 false = S754_finite false m e
      /\ Z.pos (digits2_pos m) + e = Z.pos (digits2_pos p).
Proof.
  intros p Hp. cbn [binary_normalize]. unfold binary_round.
  destruct (shl_align_mag p 0 (fexp prec emax (Z.pos (digits2_pos p) + 0)))
    as [A B].
  destruct (shl_align p 0 (fexp prec emax (Z.pos (digits2_pos p) + 0)))
    as [mz ez].
  cbn [fst snd] in *. rewrite fexp_eq in B.
  exists mz, ez. split; [|lia].
  apply binary_round_aux_exact; [rewrite fexp_eq|]; lia.
Qed.

Lemma valid_finite :
  forall s m e,
    valid_binary (S754_finite s m e) = true ->
    e = fexp prec emax (Z.pos (digits2_pos m) + e) /\ e <= 971.
Proof.
  intros s m e H. cbn [SpecFloat.valid_binary] in H.
  unfold bounded, canonical_mantissa in H.
  apply andb_true_iff in H as [H1 H2].
  apply Z.eqb_eq in H1. apply Z.leb_le in H2.
  change (emax - prec) with 971 in H2. split; [symmetry; exact H1|exact H2].
Qed.

Lemma pow2_max :
  forall a b, 0 <= a -> 0 <= b -> 2 ^ a + 2 ^ b <= 2 ^ (Z.max a b + 1).
Proof.
  intros a b Ha Hb.
  replace (Z.max a b + 1) with (Z.succ (Z.max a b)) by lia.
  rewrite Z.pow_succ_r by lia.
  pose proof (Z.pow_le_mono_r 2 a (Z.max a b)).
  pose proof (Z.pow_le_mono_r 2 b (Z.max a b)). lia.
Qed.

Lemma SFmul_fin :
  forall x y Bx By,
    valid_binary x = true -> valid_binary y = true ->
    fin_le x Bx -> fin_le y By ->
    0 <= Bx -> 0 <= By -> Bx + By <= 1023 ->
    fin_le (SFmul prec emax x y) (Bx + By + 1).
Proof.
  intros [sx|sx| |sx mx ex] [sy|sy| |sy my ey] Bx By Vx Vy Hx Hy H0x H0y HB;
    cbn [fin_le SFmul] in *; try tauto.
  destruct (valid_finite _ _ _ Vx) as [Cx Ex].
  destruct (valid_finite _ _ _ Vy) as [Cy Ey].
  rewrite fexp_eq in Cx, Cy.
  assert (D : Zdigits2 (Z.pos (mx * my))
              <= Z.pos (digits2_pos mx) + Z.pos (digits2_pos my)).
  { apply Zdigits2_le. rewrite Z.abs_eq by lia.
    rewrite Pos2Z.inj_mul, Z.pow_add_r by lia.
    pose proof (digits2_pos_bounds mx). pose proof (digits2_pos_bounds my).
    nia. }
  eapply fin_le_weaken.
  - apply binary_round_aux_fin; lia.
  - lia.
Qed.

Lemma SFsub_fin :
  forall x y Bx By,
    valid_binary x = true -> valid_binary y = true ->
    fin_le x Bx -> fin_le y By ->
    0 <= Bx <= 1020 -> 0 <= By <= 1020 ->
    fin_le (SFsub prec emax x y) (Z.max Bx By + 2).
Proof.
  intros [sx|sx| |sx mx ex] [sy|sy| |sy my ey] Bx By Vx Vy Hx Hy H0x H0y;
    cbn [fin_le SFsub] in *; try tauto; try lia.
  - destruct sx, sy; exact I.
  - destruct (valid_finite _ _ _ Vx) as [Cx Ex].
    destruct (valid_finite _ _ _ Vy) as [Cy Ey].
    rewrite fexp_eq in Cx, Cy.
    destruct (shl_align_mag mx ex (Z.min ex ey)) as [Ax _].
    destruct (shl_align_mag my ey (Z.min ex ey)) as [Ay _].
    unfold shl_align in Ax, Ay |- *.
    set (ez := Z.min ex ey) in *.
    set (ax := fst match ez - ex with
                   | Z.neg d => (Pos.iter xO mx d, ez)
                   | _ => (mx, ex)
                   end) in *.
    set (ay := fst match ez - ey with
                   | Z.neg d => (Pos.iter xO my d, ez)
                   | _ => (my, ey)
                   end) in *.
    assert (Sx : snd match ez - ex with
                     | Z.neg d => (Pos.iter xO mx d, ez)
                     | _ => (mx, ex)
                     end = ez)
      by (destruct (ez - ex) eqn:E; cbn [snd]; lia).
    assert (Sy : snd match ez - ey with
                     | Z.neg d => (Pos.iter xO my d, ez)
                     | _ => (my, ey)
                     end = ez)
      by (destruct (ez - ey) eqn:E; cbn [snd]; lia).
    rewrite Sx in Ax. rewrite Sy in Ay.
    pose proof (digits2_pos_bounds ax) as [_ Ux].
    pose proof (digits2_pos_bounds ay) as [_ Uy].
    pose proof (pow2_max (Z.pos (digits2_pos ax)) (Z.pos (digits2_pos ay))
                  ltac:(lia) ltac:(lia)) as P.
    assert (D : Zdigits2 (cond_Zopp sx (Z.pos ax) - cond_Zopp sy (Z.pos ay))
                <= Z.max (Z.pos (digits2_pos ax)) (Z.pos (digits2_pos ay)) + 1).
    { apply Zdigits2_le. destruct sx, sy; cbn [cond_Zopp]; lia. }
    eapply fin_le_weaken.
    + apply binary_normalize_fin; lia.
    + lia.
Qed.

Lemma SFdiv_fin :
  forall x y Bx Ay,
    valid_binary x = true -> valid_binary y = true ->
    fin_le x Bx -> fin_ge y Ay ->
    -1000 <= Bx - Ay <= 1020 ->
    fin_le (SFdiv prec emax x y) (Bx - Ay + 2).
Proof.
  intros [sx|sx| |sx mx ex] [sy|sy| |sy my ey] Bx Ay Vx Vy Hx Hy HB;
    cbn [fin_le fin_ge SFdiv] in *; try tauto.
  destruct (valid_finite _ _ _ Vx) as [Cx Ex].
  destruct (valid_finite _ _ _ Vy) as [Cy Ey].
  rewrite fexp_eq in Cx, Cy.
  unfold SFdiv_core_binary. cbn [Zdigits2]. rewrite fexp_eq.
  set (dx := Z.pos (digits2_pos mx)) in *.
  set (dy := Z.pos (digits2_pos my)) in *.
  set (e' := Z.min (Z.max (dx + ex - (dy + ey) - 53) (-1074)) (ex - ey)).
  set (s := ex - ey - e').
  assert (Hs : 0 <= s) by (unfold s, e'; lia).
  set (m' := match s with
             | 0 => Z.pos mx
             | Z.pos _ => Z.shiftl (Z.pos mx) s
             | Z.neg _ => 0
             end).
  assert (Hm' : m' = Z.pos mx * 2 ^ s).
  { unfold m'. destruct s as [|p|p] eqn:Es.
    - simpl. lia.
    - apply Z.shiftl_mul_pow2. lia.
    - lia. }
  clearbody m'.
  destruct (Z.div_eucl m' (Z.pos my)) as [q r] eqn:Eq.
  assert (Hq : q = m' / Z.pos my) by (unfold Z.div; rewrite Eq; reflexivity).
  pose proof (digits2_pos_bounds mx) as [_ Ux].
  pose proof (digits2_pos_bounds my) as [Ly _].
  fold dx in Ux. fold dy in Ly.
  assert (Hp : 0 < 2 ^ s) by (apply Z.pow_pos_nonneg; lia).
  assert (Hm0 : 0 <= m') by nia.
  assert (Hq0 : 0 <= q) by (subst q; apply Z.div_pos; lia).
  assert (Hqm : Z.pos my * q <= m')
    by (subst q; apply Z.mul_div_le; lia).
  assert (Hmlt : m' < 2 ^ (dx + s)).
  { rewrite Hm', Z.pow_add_r by (unfold dx; lia). nia. }
  assert (D : Zdigits2 q + e' <= Z.max e' (dx + ex - (dy + ey) + 1)).
  { destruct (Z.lt_ge_cases (dx + s - dy + 1) 0) as [Hk|Hk].
    - assert (q = 0).
      { subst q. apply Z.div_small. split; [assumption|].
        pose proof (Z.pow_le_mono_r 2 (dx + s) (dy - 1)). lia. }
      subst q. replace (m' / Z.pos my) with 0 by congruence.
      cbn [Zdigits2]. lia.
    - assert (Hlt : q < 2 ^ (dx + s - dy + 1)).
      { assert (Hpp : 0 < 2 ^ (dy - 1))
          by (apply Z.pow_pos_nonneg; unfold dy; lia).
        assert (E : 2 ^ (dx + s) = 2 ^ (dx + s - dy + 1) * 2 ^ (dy - 1)).
        { rewrite <- Z.pow_add_r by (unfold dy; lia). f_equal. lia. }
        nia. }
      pose proof (Zdigits2_le q (dx + s - dy + 1)
                    ltac:(rewrite Z.abs_eq by lia; exact Hlt)).
      unfold s in *. lia. }
  pose proof (Zdigits2_nonneg q).
  eapply fin_le_weaken.
  - apply binary_round_aux_fin; unfold e' in *; lia.
  - unfold e' in *. lia.
Qed.

Lemma wB_value : Uint63Axioms.wB = 9223372036854775808.
Proof. reflexivity. Qed.

(** A count from 1 to below 2^53 converts to a finite float whose
    magnitude lies between 1 and 53. *)
Lemma of_int_fin :
  forall n,
    1 <= n < 2 ^ 53 ->
    fin_le (Prim2SF (Float.of_int n)) 53
    /\ fin_ge (Prim2SF (Float.of_int n)) 1.
Proof.
  intros n Hn. unfold Float.of_int.
  rewrite of_uint63_spec, Uint63.of_Z_spec, wB_value.
  rewrite Z.mod_small by lia.
  destruct n as [|p|p]; try lia.
  assert (Hd : Z.pos (digits2_pos p) <= 53).
  { change (Z.pos (digits2_pos p)) with (Zdigits2 (Z.pos p)).
    apply Zdigits2_le. rewrite Z.abs_eq; lia. }
  destruct (binary_normalize_small p Hd) as (m & e & -> & E).
  cbn [fin_le fin_ge]. lia.
Qed.

Lemma div_fin :
  forall x y Bx Ay,
    fin_le (Prim2SF x) Bx -> fin_ge (Prim2SF y) Ay ->
    -1000 <= Bx - Ay <= 1020 ->
    fin_le (Prim2SF (x / y)%float) (Bx - Ay + 2).
Proof.
  intros x y Bx Ay Hx Hy HB. rewrite div_spec.
  apply SFdiv_fin; try assumption; apply Prim2SF_valid.
Qed.

Lemma mul_fin :
  forall x y Bx By,
    fin_le (Prim2SF x) Bx -> fin_le (Prim2SF y) By ->
    0 <= Bx -> 0 <= By -> Bx + By <= 1023 ->
    fin_le (Prim2SF (x * y)%float) (Bx + By + 1).
Proof.
  intros x y Bx By Hx Hy H0x H0y HB. rewrite mul_spec.
  apply SFmul_fin; try assumption; apply Prim2SF_valid.
Qed.

Lemma sub_fin :
  forall x y Bx By,
    fin_le (Prim2SF x) Bx -> fin_le (Prim2SF y) By ->
    0 <= Bx <= 1020 -> 0 <= By <= 1020 ->
    fin_le (Prim2SF (x - y)%float) (Z.max Bx By + 2).
Proof.
  intros x y Bx By Hx Hy H0x H0y. rewrite sub_spec.
  apply SFsub_fin; try assumption; apply Prim2SF_valid.
Qed.

Ltac literal_fin := vm_compute; discriminate.

Set Warnings "-inexact-float".

Lemma formula_en_fin :
  forall s w y,
    1 <= s < 2 ^ 53 -> 1 <= w < 2 ^ 53 -> 1 <= y < 2 ^ 53 ->
    fin_le
      (Prim2SF (206.835
                - 1.015 * (Float.of_int w / Float.of_int s)
                - 84.6 * (Float.of_int y / Float.of_int w))%float) 64.
Proof.
  intros s w y Hs Hw Hy.
  destruct (of_int_fin s Hs) as [_ Gs].
  destruct (of_int_fin w Hw) as [Lw Gw].
  destruct (of_int_fin y Hy) as [Ly _].
  pose proof (div_fin _ _ 53 1 Lw Gs ltac:(lia)) as Hasl.
  pose proof (div_fin _ _ 53 1 Ly Gw ltac:(lia)) as Hasw.
  assert (C1 : fin_le (Prim2SF 1.015) 1) by literal_fin.
  assert (C2 : fin_le (Prim2SF 84.6) 7) by literal_fin.
  assert (C0 : fin_le (Prim2SF 206.835) 8) by literal_fin.
  pose proof (mul_fin _ _ 1 (53 - 1 + 2) C1 Hasl
                ltac:(lia) ltac:(lia) ltac:(lia)) as H1.
  pose proof (sub_fin _ _ 8 _ C0 H1 ltac:(lia) ltac:(lia)) as H2.
  pose proof (mul_fin _ _ 7 (53 - 1 + 2) C2 Hasw
                ltac:(lia) ltac:(lia) ltac:(lia)) as H3.
  pose proof (sub_fin _ _ _ _ H2 H3 ltac:(lia) ltac:(lia)) as H4.
  eapply fin_le_weaken; [exact H4|lia].
Qed.

Lemma formula_de_fin :
  forall s w y,
    1 <= s < 2 ^ 53 -> 1 <= w < 2 ^ 53 -> 1 <= y < 2 ^ 53 ->
    fin_le
      (Prim2SF (180
                - Float.of_int w / Float.of_int s
                - 58.5 * (Float.of_int y / Float.of_int w))%float) 64.
Proof.
  intros s w y Hs Hw Hy.
  destruct (of_int_fin s Hs) as [_ Gs].
  destruct (of_int_fin w Hw) as [Lw Gw].
  destruct (of_int_fin y Hy) as [Ly _].
  pose proof (div_fin _ _ 53 1 Lw Gs ltac:(lia)) as Hasl.
  pose proof (div_fin _ _ 53 1 Ly Gw ltac:(lia)) as Hasw.
  assert (C2 : fin_le (Prim2SF 58.5) 6) by literal_fin.
  assert (C0 : fin_le (Prim2SF 180) 8) by literal_fin.
  pose proof (sub_fin _ _ 8 _ C0 Hasl ltac:(lia) ltac:(lia)) as H2.
  pose proof (mul_fin _ _ 6 (53 - 1 + 2) C2 Hasw
                ltac:(lia) ltac:(lia) ltac:(lia)) as H3.
  pose proof (sub_fin _ _ _ _ H2 H3 ltac:(lia) ltac:(lia)) as H4.
  eapply fin_le_weaken; [exact H4|lia].
Qed.

Set Warnings "inexact-float".
End FloatBounds.

Lemma int_round_fin :
  forall x B,
    fin_le (FloatOps.Prim2SF x) B ->
    exists n, Float.int_round x = OK n /\ Rounds n (FloatOps.Prim2SF x).
Proof.
  intros x B H. unfold Float.int_round.
  destruct (FloatOps.Prim2SF x) as [s|s| |s m e]; cbn [fin_le Rounds] in *;
    try contradiction.
  - exists 0%Z. split; reflexivity.
  - destruct s; eexists; (split; [reflexivity|]).
    + apply nearest_opp, nearest_even_pos.
    + apply nearest_even_pos.
Qed.

(** ** The score against the exact formula *)

(** C6, as stated, fails: for one sentence, nine words and 28 syllables
    in English the formula is 206.835 - 9.135 - 263.2 = -65.5, which
    rounds to -66 with ties to even and with ties away from zero; the
    program answers -65. *)
Lemma score_differs_from_exact_rounding :
  init Examples.pair_dict "a.txt" "en" (Examples.disk nine_words)
  = (OK nine_en,
     read_trace "a.txt" (log (LoadDict "en_US") (Examples.disk nine_words)))
  /\ (n_sentences nine_en, n_words nine_en, n_syllables nine_en)
     = (1, 9, 28)%Z
  /\ calc_reading_ease nine_en = (OK (Some (-65)%Z), nine_en)
  /\ exact_en 1 9 28 = (-131 * 4500, 2 * 4500)%Z
  /\ round_half_even (exact_en 1 9 28) = (-66)%Z
  /\ round_half_away (exact_en 1 9 28) = (-66)%Z.
Proof. repeat split; vm_compute; reflexivity. Qed.

Set Warnings "-inexact-float".

(** C6, amended: for a constructed analyzer with at least one sentence
    and one word (counts below 2^53), [calc_reading_ease] returns an
    integer: the integer nearest, ties to even, to the value that the
    formula of the language has when every quotient, product and
    difference is computed in binary64: (206.835 - 1.015 asl) - 84.6 asw
    for 'en' and (180 - asl) - 58.5 asw for 'de', with asl = n_words /
    n_sentences and asw = n_syllables / n_words.  The language is one of
    the two, and the object is left as it is. *)
Theorem calc_reading_ease_formula :
  forall Hy f l w self w',
    init Hy f l w = (OK self, w') ->
    (1 <= n_sentences self < 2 ^ 53)%Z ->
    (1 <= n_words self < 2 ^ 53)%Z ->
    (n_syllables self < 2 ^ 53)%Z ->
    let asl := div (Float.of_int (n_words self))
                   (Float.of_int (n_sentences self)) in
    let asw := div (Float.of_int (n_syllables self))
                   (Float.of_int (n_words self)) in
    (l = "en"%string \/ l = "de"%string)
    /\ (l = "en"%string ->
        exists n,
          calc_reading_ease self = (OK (Some n), self)
          /\ Rounds n (FloatOps.Prim2SF
                         (206.835 - 1.015 * asl - 84.6 * asw)%float))
    /\ (l = "de"%string ->
        exists n,
          calc_reading_ease self = (OK (Some n), self)
          /\ Rounds n (FloatOps.Prim2SF (180 - asl - 58.5 * asw)%float)).
Proof.
  intros Hy f l w self w' H Hs Hw Hy' asl asw.
  pose proof (syllables_ge_words Hy f l w self w' H) as Hge.
  destruct (init_ok Hy f l w self w' H) as (Hl & c & _ & E & _).
  assert (L : lang self = l) by (rewrite E; reflexivity).
  split; [tauto|].
  split; intros ->; rewrite calc_reading_ease_run by lia; rewrite L;
    cbv zeta; simpl String.eqb; cbv iota;
    unfold calc_reading_ease_en, calc_reading_ease_de.
  - destruct (int_round_fin _ 64
                (FloatBounds.formula_en_fin (n_sentences self) (n_words self)
                   (n_syllables self) Hs Hw ltac:(lia)))
      as (n & En & Rn).
    exists n. fold asl asw in En, Rn |- *. rewrite En. split; [reflexivity|].
    exact Rn.
  - destruct (int_round_fin _ 64
                (FloatBounds.formula_de_fin (n_sentences self) (n_words self)
                   (n_syllables self) Hs Hw ltac:(lia)))
      as (n & En & Rn).
    exists n. fold asl asw in En, Rn |- *. rewrite En. split; [reflexivity|].
    exact Rn.
Qed.

Lemma calc_reading_ease_formula_witness :
  exists n,
    calc_reading_ease nine_en = (OK (Some n), nine_en)
    /\ Rounds n
         (FloatOps.Prim2SF
            (206.835 - 1.015 * (Float.of_int 9 / Float.of_int 1)
             - 84.6 * (Float.of_int 28 / Float.of_int 9))%float).
Proof.
  assert (E : init Examples.pair_dict "a.txt" "en" (Examples.disk nine_words)
              = (OK nine_en,
                 read_trace "a.txt"
                   (log (LoadDict "en_US") (Examples.disk nine_words))))
    by (vm_compute; reflexivity).
  assert (Hs : (1 <= n_sentences nine_en < 2 ^ 53)%Z)
    by (split; vm_compute; [discriminate|reflexivity]).
  assert (Hw : (1 <= n_words nine_en < 2 ^ 53)%Z)
    by (split; vm_compute; [discriminate|reflexivity]).
  assert (Hy : (n_syllables nine_en < 2 ^ 53)%Z) by (vm_compute; reflexivity).
  destruct (calc_reading_ease_formula _ _ _ _ _ _ E Hs Hw Hy) as (_ & A & _).
  exact (A eq_refl).
Defined.

Set Warnings "inexact-float".
